(** * Guest-list / payment reconciliation (authenticate.py)

    A shallow embedding of [normalize_name], [parse_payments] and [main]
    of [src/authenticate.py], and the properties of the reconciliation
    that the specification states.

    Conventions of the model.
    - Text is a list of [ascii] characters.  Character classes
      ([str.strip], [str.split], [str.lower], [\s], [\d], [[A-Za-z]])
      are Python's on the ASCII range.
    - A Python [dict] whose iteration order is observed ([payments],
      [guest_structure]) is an association list in insertion order with
      unique keys; a [dict] that is only looked up is a [gmap]; a [set]
      is a [gset].
    - A Python [float] is an IEEE-754 binary64 number, see [Float64].
    - An uncaught exception is the [Raise] outcome of [result]. *)

From Stdlib Require Import ZArith Ascii String.
From stdpp Require Import gmap strings list.

Local Open Scope Z_scope.
Set Warnings "-clear-no-such-hyp".

Abbreviation str := (list ascii).

(** A string literal as a [str]. *)
Definition s2l (s : string) : str := list_ascii_of_string s.

(** ** Outcomes: a value, or an uncaught Python exception *)

Inductive exn := OverflowError | ValueError | ZeroDivisionError | IndexError.

Inductive result (A : Type) :=
| Ok (a : A)
| Raise (e : exn).
Arguments Ok {A} a.
Arguments Raise {A} e.

Definition bind {A B} (r : result A) (k : A -> result B) : result B :=
  match r with
  | Ok a => k a
  | Raise e => Raise e
  end.

Notation "x <- r ;; k" := (bind r (fun x => k))
  (at level 100, r at next level, right associativity).

(** ** Python string primitives on the ASCII range *)

Module PyStr.

Definition code (c : ascii) : N := N_of_ascii c.

(** [str.isspace] on one character: TAB, LF, VT, FF, CR, the four
    separators FS, GS, RS, US, and SPACE. *)
Definition is_space (c : ascii) : bool :=
  let n := code c in
  ((9 <=? n) && (n <=? 13) || (28 <=? n) && (n <=? 32))%N.

Definition is_upper (c : ascii) : bool :=
  let n := code c in ((65 <=? n) && (n <=? 90))%N.

Definition is_lower (c : ascii) : bool :=
  let n := code c in ((97 <=? n) && (n <=? 122))%N.

Definition is_alpha (c : ascii) : bool := is_upper c || is_lower c.

Definition is_digit (c : ascii) : bool :=
  let n := code c in ((48 <=? n) && (n <=? 57))%N.

Definition lower_char (c : ascii) : ascii :=
  if is_upper c then ascii_of_N (code c + 32) else c.

Definition upper_char (c : ascii) : ascii :=
  if is_lower c then ascii_of_N (code c - 32) else c.

(** [s.lower()] *)
Definition lower (s : str) : str := map lower_char s.

(** [s.lstrip()] *)
Fixpoint lstrip (s : str) : str :=
  match s with
  | c :: s' => if is_space c then lstrip s' else s
  | [] => []
  end.

(** [s.rstrip()] *)
Fixpoint rstrip (s : str) : str :=
  match s with
  | [] => []
  | c :: s' =>
      match rstrip s' with
      | [] => if is_space c then [] else [c]
      | r => c :: r
      end
  end.

(** [s.strip()] *)
Definition strip (s : str) : str := rstrip (lstrip s).

(** [s.split()]: the maximal runs of non-space characters.  [cur] is
    the run being read, last character first. *)
Fixpoint split_from (cur : str) (s : str) : list str :=
  match s with
  | [] => match cur with [] => [] | _ => [rev cur] end
  | c :: s' =>
      if is_space c
      then match cur with
           | [] => split_from [] s'
           | _ => rev cur :: split_from [] s'
           end
      else split_from (c :: cur) s'
  end.

Definition split (s : str) : list str := split_from [] s.

(** The longest prefix of characters in a class, and what follows. *)
Fixpoint take_while (p : ascii -> bool) (s : str) : str :=
  match s with
  | c :: s' => if p c then c :: take_while p s' else []
  | [] => []
  end.

Fixpoint drop_while (p : ascii -> bool) (s : str) : str :=
  match s with
  | c :: s' => if p c then drop_while p s' else s
  | [] => []
  end.

(** [s.startswith(p)] *)
Fixpoint startswith (s p : str) : bool :=
  match p, s with
  | [], _ => true
  | _ :: _, [] => false
  | a :: p', b :: s' => bool_decide (a = b) && startswith s' p'
  end.

(** [a in b] for two strings: [a] occurs in [b] as a substring. *)
Fixpoint str_in (a b : str) : bool :=
  startswith b a ||
  match b with
  | [] => false
  | _ :: b' => str_in a b'
  end.

(** [s.endswith(c)] for a one-character suffix. *)
Definition endswith_char (s : str) (c : ascii) : bool :=
  match last s with
  | Some d => bool_decide (d = c)
  | None => false
  end.

(** [s.title()]: a cased character is upper-cased when it follows an
    uncased one (or starts the string) and lower-cased otherwise. *)
Fixpoint title_from (prev_cased : bool) (s : str) : str :=
  match s with
  | [] => []
  | c :: s' =>
      (if is_alpha c
       then if prev_cased then lower_char c else upper_char c
       else c) :: title_from (is_alpha c) s'
  end.

Definition title (s : str) : str := title_from false s.

End PyStr.

Import PyStr.

(** ** [normalize_name] *)

Definition normalize_name (name : str) : str := lower (strip name).

(** ** The fuzzy name test of [main] (lines 125-132 and 170-178) *)

(** [x.split()[0] if x.split() else x] *)
Definition first_word (x : str) : str :=
  match split x with
  | w :: _ => w
  | [] => x
  end.

(** The condition of the two scanning loops, the disjuncts in the order
    of the source. *)
Definition name_matches (main_guest_normalized payment_name : str) : bool :=
  let main_first_word := first_word main_guest_normalized in
  let payment_first_word := first_word payment_name in
  str_in main_guest_normalized payment_name
  || str_in payment_name main_guest_normalized
  || bool_decide (main_first_word = payment_first_word)
  || str_in main_first_word payment_name
  || str_in payment_first_word main_guest_normalized.

(** The predicate [matches(a, b)] in the words of the specification:
    equal, or one contains the other, or equal first tokens, or either
    full name contains the other's first token. *)
Definition spec_matches (a b : str) : bool :=
  bool_decide (a = b)
  || str_in b a
  || str_in a b
  || bool_decide (first_word a = first_word b)
  || (str_in (first_word b) a || str_in (first_word a) b).

(** ** Python floats: IEEE-754 binary64, round to nearest even

    Every finite double is an integer multiple of 2^-1074 (the smallest
    subnormal) whose integer factor has at most 53 significant bits, and
    is below 2^1024.  [Fin n] is the double n * 2^-1074; the sign of a
    zero is not kept (the program never observes it).  An operation is
    the exact result, rounded to the nearest double, ties to the even
    significand, and to an infinity from 2^1024 - 2^970 on. *)

Module Float64.

Inductive float :=
| Fin (n : Z)
| PInf
| NInf
| NaN.

(** The exponent of the unit, the precision, and the first value (in
    units) that is too large for a double. *)
Definition emin : Z := 1074.
Definition prec : Z := 53.
Definition unit : Z := 2 ^ emin.
Definition huge : Z := 2 ^ (emin + 1024).

(** The number of low bits that a double of integer part [f] (in
    units) cannot hold. *)
Definition ulp_exp (f : Z) : Z := Z.max 0 (Z.log2 f + 1 - prec).

(** [p / q] rounded to the nearest integer, ties to even. *)
Definition div_half_even (p q : Z) : Z :=
  let k := p / q in
  match 2 * (p mod q) ?= q with
  | Lt => k
  | Gt => k + 1
  | Eq => if Z.even k then k else k + 1
  end.

(** The double nearest to [p / q] units, for [0 <= p] and [0 < q]. *)
Definition round_pos (p q : Z) : float :=
  let s := ulp_exp (p / q) in
  let n := div_half_even p (q * 2 ^ s) * 2 ^ s in
  if n <? huge then Fin n else PInf.

Definition neg (x : float) : float :=
  match x with
  | Fin n => Fin (- n)
  | PInf => NInf
  | NInf => PInf
  | NaN => NaN
  end.

(** The double nearest to [p / q] units, for [0 < q]. *)
Definition round (p q : Z) : float :=
  if 0 <=? p then round_pos p q else neg (round_pos (- p) q).

(** [x + y] *)
Definition add (x y : float) : float :=
  match x, y with
  | NaN, _ | _, NaN => NaN
  | PInf, NInf | NInf, PInf => NaN
  | PInf, _ | _, PInf => PInf
  | NInf, _ | _, NInf => NInf
  | Fin a, Fin b => round (a + b) 1
  end.

(** [x / y]; a zero divisor raises. *)
Definition div (x y : float) : result float :=
  match x, y with
  | _, Fin 0 => Raise ZeroDivisionError
  | NaN, _ | _, NaN => Ok NaN
  | Fin _, (PInf | NInf) => Ok (Fin 0)
  | (PInf | NInf), (PInf | NInf) => Ok NaN
  | PInf, Fin b => Ok (if 0 <? b then PInf else NInf)
  | NInf, Fin b => Ok (if 0 <? b then NInf else PInf)
  | Fin a, Fin b =>
      Ok (if 0 <? b then round (a * unit) b else round (- a * unit) (- b))
  end.

(** [x == y] *)
Definition eqb (x y : float) : bool :=
  match x, y with
  | Fin a, Fin b => a =? b
  | PInf, PInf | NInf, NInf => true
  | _, _ => false
  end.

(** [x <= y] and [x < y] *)
Definition leb (x y : float) : bool :=
  match x, y with
  | NaN, _ | _, NaN => false
  | NInf, _ | _, PInf => true
  | Fin a, Fin b => a <=? b
  | _, _ => false
  end.

Definition ltb (x y : float) : bool :=
  match x, y with
  | NaN, _ | _, NaN => false
  | PInf, _ | _, NInf => false
  | Fin a, Fin b => a <? b
  | _, _ => true
  end.

(** [int(x)]: truncation toward zero; an infinity or a NaN raises. *)
Definition to_int (x : float) : result Z :=
  match x with
  | Fin n => Ok (Z.quot n unit)
  | PInf | NInf => Raise OverflowError
  | NaN => Raise ValueError
  end.

(** The double of an integer literal such as [5.0] or [0.0]. *)
Definition of_Z (z : Z) : float := round (z * unit) 1.

(** [float(s)] for a string of the shape [\d+\.?\d*] (the only strings
    the program converts): the digits before and after the point are
    read as one integer, divided by the power of ten of the number of
    digits after the point. *)
Definition digit_value (c : ascii) : Z := Z.of_N (code c) - 48.

Definition digits_value (ds : str) : Z :=
  fold_left (fun acc c => 10 * acc + digit_value c) ds 0.

Definition of_decimal (s : str) : float :=
  let int_part := take_while is_digit s in
  let frac_part :=
    match drop_while is_digit s with
    | c :: r => if bool_decide (c = "."%char) then take_while is_digit r else []
    | [] => []
    end in
  round (digits_value (int_part ++ frac_part) * unit)
        (10 ^ Z.of_nat (length frac_part)).

End Float64.

Import Float64.

(** ** Insertion-ordered dictionaries

    A Python [dict] iterates in the order in which its keys were first
    inserted; assigning to a key that is present keeps its place. *)

Module Dict.

Section Ops.
Context {V : Type}.

(** [d.get(key)] *)
Fixpoint get (d : list (str * V)) (key : str) : option V :=
  match d with
  | [] => None
  | (k, v) :: rest => if bool_decide (k = key) then Some v else get rest key
  end.

(** [key in d] *)
Definition contains (d : list (str * V)) (key : str) : bool :=
  match get d key with
  | Some _ => true
  | None => false
  end.

(** [d[key] = value] *)
Fixpoint set (d : list (str * V)) (key : str) (value : V) : list (str * V) :=
  match d with
  | [] => [(key, value)]
  | (k, v) :: rest =>
      if bool_decide (k = key) then (k, value) :: rest
      else (k, v) :: set rest key value
  end.
End Ops.

End Dict.

(** ** Regular expressions, as [re.search] runs them

    The fragment of [re] that the two patterns of [parse_payments] use,
    with the backtracking order of the [re] module: alternatives are
    tried in priority order (a greedy repetition tries one more
    character first, a lazy one tries to stop first) and the first
    complete match wins. *)

Module Re.

Inductive regex :=
| Class (p : ascii -> bool)
    (** one character of a class *)
| Lit (w : str)
    (** a literal, compared under [re.IGNORECASE] *)
| Cat (r1 r2 : regex)
| Maybe (r : regex)
    (** [r?] *)
| Many (greedy : bool) (least : nat) (p : ascii -> bool)
    (** [[p]*], [[p]+] (greedy) or [[p]+?] (lazy) over a class *)
| Group (i : nat) (r : regex).
    (** capturing group number [i] *)

(** The text captured by the groups that have matched so far. *)
Abbreviation captures := (list (nat * str)).

Definition same_letter (a b : ascii) : bool :=
  bool_decide (lower_char a = lower_char b).

Section Run.
Context {A : Type}.

Fixpoint lit (w s : str) (k : str -> option A) : option A :=
  match w with
  | [] => k s
  | a :: w' =>
      match s with
      | b :: s' => if same_letter a b then lit w' s' k else None
      | [] => None
      end
  end.

Fixpoint many (greedy : bool) (p : ascii -> bool) (least : nat) (s : str)
    (k : str -> option A) : option A :=
  let stop := match least with O => k s | S _ => None end in
  let more :=
    match s with
    | c :: s' => if p c then many greedy p (Nat.pred least) s' k else None
    | [] => None
    end in
  if greedy
  then match more with Some a => Some a | None => stop end
  else match stop with Some a => Some a | None => more end.

(** What was read between the input [s] and its suffix [s']. *)
Definition consumed (s s' : str) : str :=
  take (length s - length s') s.

Fixpoint run (r : regex) (s : str) (caps : captures)
    (k : str -> captures -> option A) : option A :=
  match r with
  | Class p =>
      match s with
      | c :: s' => if p c then k s' caps else None
      | [] => None
      end
  | Lit w => lit w s (fun s' => k s' caps)
  | Cat r1 r2 => run r1 s caps (fun s' caps' => run r2 s' caps' k)
  | Maybe r' =>
      match run r' s caps k with
      | Some a => Some a
      | None => k s caps
      end
  | Many greedy least p => many greedy p least s (fun s' => k s' caps)
  | Group i r' =>
      run r' s caps (fun s' caps' => k s' ((i, consumed s s') :: caps'))
  end.
End Run.

(** [re.search(r, s)]: the match at the leftmost offset that has one. *)
Fixpoint search (r : regex) (s : str) : option captures :=
  match run r s [] (fun _ caps => Some caps) with
  | Some caps => Some caps
  | None =>
      match s with
      | [] => None
      | _ :: s' => search r s'
      end
  end.

(** [match.group(i)] of a group that took part in the match. *)
Fixpoint group (caps : captures) (i : nat) : str :=
  match caps with
  | [] => []
  | (j, text) :: rest => if bool_decide (j = i) then text else group rest i
  end.

End Re.

(** ** [parse_payments] *)

Import Re.

Infix ">>>" := Cat (at level 60, right associativity).

(** The class of a letter, a space or an apostrophe. *)
Definition name_char (c : ascii) : bool :=
  is_alpha c || is_space c || bool_decide (c = "'"%char).

(** The amount: a dollar sign, then group 2, one or more digits, an
    optional point and any number of digits. *)
Definition amount_pattern : regex :=
  Lit (s2l "$") >>>
  Group 2 (Many true 1 is_digit >>> Maybe (Lit (s2l ".")) >>> Many true 0 is_digit).

(** The pattern of line 30: group 1, a letter and then lazily one or
    more name characters; spaces, paid, spaces, you, spaces, the amount. *)
Definition paid_pattern : regex :=
  Group 1 (Class is_alpha >>> Many false 1 name_char) >>>
  Many true 1 is_space >>> Lit (s2l "paid") >>>
  Many true 1 is_space >>> Lit (s2l "you") >>>
  Many true 1 is_space >>> amount_pattern.

(** The pattern of line 42: optionally BofA: and spaces; then as line 30
    with sent for paid. *)
Definition sent_pattern : regex :=
  Maybe (Lit (s2l "BofA:") >>> Many true 1 is_space) >>>
  Group 1 (Class is_alpha >>> Many false 1 name_char) >>>
  Many true 1 is_space >>> Lit (s2l "sent") >>>
  Many true 1 is_space >>> Lit (s2l "you") >>>
  Many true 1 is_space >>> amount_pattern.

(** The ledger [payments]: normalized payer name to the sum paid. *)
Abbreviation ledger := (list (str * float)).

(** The body shared by the two [if match:] branches. *)
Definition record_payment (payments : ledger) (m : captures) : ledger :=
  let name := strip (group m 1) in
  let amount := of_decimal (group m 2) in
  let normalized_name := normalize_name name in
  match Dict.get payments normalized_name with
  | Some paid => Dict.set payments normalized_name (add paid amount)
  | None => Dict.set payments normalized_name amount
  end.

(** The header test of line 26. *)
Definition is_header (line : str) : bool :=
  endswith_char line ":"%char
  && negb (str_in (s2l "paid") (lower line))
  && negb (str_in (s2l "sent") (lower line)).

(** One iteration of the loop over the lines. *)
Definition parse_line (payments : ledger) (raw : str) : ledger :=
  let line := strip raw in
  match line with
  | [] => payments
  | _ =>
      if is_header line then payments
      else
        match search paid_pattern line with
        | Some m => record_payment payments m
        | None =>
            match search sent_pattern line with
            | Some m => record_payment payments m
            | None => payments
            end
        end
  end.

Definition parse_payments (lines : list str) : ledger :=
  fold_left parse_line lines [].

(** ** [main]: the name sets *)

(** [{normalize_name(line.strip()) for line in f if line.strip()}] *)
Definition read_names (lines : list str) : gset str :=
  list_to_set
    (map (fun line => normalize_name (strip line))
         (filter (fun line => strip line <> []) lines)).

(** ** [main]: the guest table *)

(** A row of the guest table, as [csv.DictReader] yields it; only the
    three columns that [main] reads. *)
Record row := {
  Name : str;
  Status : str;
  IsPlusOneOf : str
}.

(** The four structures that the loop over the rows fills. *)
Record guests := {
  blacklist : list str;
  guest_structure : list (str * list str);
  main_guests : gmap str str;
  all_guests : gmap str str
}.

Definition no_guests : guests :=
  {| blacklist := []; guest_structure := []; main_guests := ∅; all_guests := ∅ |}.

(** One iteration of the loop over the rows (lines 74-101). *)
Definition read_row (whitelist : gset str) (g : guests) (r : row) : guests :=
  let name := strip (Name r) in
  let status := strip (Status r) in
  let plus_one_of := strip (IsPlusOneOf r) in
  if bool_decide (status <> s2l "Going") then g
  else
    let normalized_name := normalize_name name in
    let all_guests' := <[normalized_name := name]> (all_guests g) in
    let blacklist' :=
      if bool_decide (normalized_name ∉ whitelist)
      then blacklist g ++ [name] else blacklist g in
    match plus_one_of with
    | _ :: _ =>
        let main_guest_normalized := normalize_name plus_one_of in
        {| blacklist := blacklist';
           guest_structure :=
             Dict.set (guest_structure g) main_guest_normalized
               (default [] (Dict.get (guest_structure g) main_guest_normalized)
                ++ [name]);
           main_guests := main_guests g;
           all_guests := all_guests' |}
    | [] =>
        let main_guest_normalized := normalize_name name in
        {| blacklist := blacklist';
           guest_structure :=
             if Dict.contains (guest_structure g) main_guest_normalized
             then guest_structure g
             else Dict.set (guest_structure g) main_guest_normalized [];
           main_guests := <[main_guest_normalized := name]> (main_guests g);
           all_guests := all_guests' |}
    end.

Definition read_guests (whitelist : gset str) (rows : list row) : guests :=
  fold_left (read_row whitelist) rows no_guests.

(** ** [main]: the reconciliation *)

Definition PRICE_PER_GUEST : float := of_Z 5.

(** The scan of lines 122-134: the amount of the first entry, in
    insertion order, whose name passes the fuzzy test; the amount is
    left as it is when there is none. *)
Fixpoint scan_payments (entries : ledger) (main_guest_normalized : str)
    (payment_amount : float) : float :=
  match entries with
  | [] => payment_amount
  | (payment_name, amount) :: rest =>
      if name_matches main_guest_normalized payment_name then amount
      else scan_payments rest main_guest_normalized payment_amount
  end.

(** Lines 118-134: the payment amount of a group. *)
Definition resolve_payment (payments : ledger) (main_guest_normalized : str) : float :=
  let payment_amount := default (Fin 0) (Dict.get payments main_guest_normalized) in
  if Float64.eqb payment_amount (Fin 0)
  then scan_payments payments main_guest_normalized payment_amount
  else payment_amount.

(** Line 139: [int(payment_amount / PRICE_PER_GUEST)]. *)
Definition guests_covered_of (payment_amount : float) : result Z :=
  q <- div payment_amount PRICE_PER_GUEST ;; to_int q.

(** Lines 147-149: the loop over [range(...)], indexing [plus_ones]. *)
Fixpoint mark_plus_ones (accounted_for : gset str) (plus_ones : list str)
    (indices : list nat) : result (gset str) :=
  match indices with
  | [] => Ok accounted_for
  | i :: rest =>
      match plus_ones !! i with
      | Some plus_one_name =>
          mark_plus_ones ({[normalize_name plus_one_name]} ∪ accounted_for)
            plus_ones rest
      | None => Raise IndexError
      end
  end.

(** [range(n)] *)
Definition range (n : Z) : list nat := seq 0 (Z.to_nat n).

(** Lines 155-158. *)
Definition add_unpaid_plus_ones (accounted_for : gset str) (plus_ones : list str)
    (unpaid : list str) : list str :=
  fold_left
    (fun unpaid plus_one =>
       if bool_decide (normalize_name plus_one ∉ accounted_for)
       then unpaid ++ [plus_one] else unpaid)
    plus_ones unpaid.

(** The state of the loop over the groups. *)
Record tally := {
  accounted_for : gset str;
  unpaid : list str
}.

(** The display name of line 115. *)
Definition main_guest_name_of (g : guests) (main_guest_normalized : str) : str :=
  default
    (default (title main_guest_normalized) (all_guests g !! main_guest_normalized))
    (main_guests g !! main_guest_normalized).

(** One iteration of the loop over the groups (lines 114-158). *)
Definition process_group (g : guests) (payments : ledger) (t : tally)
    (group : str * list str) : result tally :=
  let '(main_guest_normalized, plus_ones) := group in
  let main_guest_name := main_guest_name_of g main_guest_normalized in
  let payment_amount := resolve_payment payments main_guest_normalized in
  guests_covered <- guests_covered_of payment_amount ;;
  accounted <-
    (if 0 <? guests_covered
     then mark_plus_ones ({[main_guest_normalized]} ∪ accounted_for t) plus_ones
            (range (Z.min (guests_covered - 1) (Z.of_nat (length plus_ones))))
     else Ok (accounted_for t)) ;;
  let unpaid1 :=
    if bool_decide (main_guest_normalized ∉ accounted)
    then unpaid t ++ [main_guest_name] else unpaid t in
  Ok {| accounted_for := accounted;
        unpaid := add_unpaid_plus_ones accounted plus_ones unpaid1 |}.

Fixpoint process_groups (g : guests) (payments : ledger) (t : tally)
    (groups : list (str * list str)) : result tally :=
  match groups with
  | [] => Ok t
  | group :: rest =>
      t' <- process_group g payments t group ;;
      process_groups g payments t' rest
  end.

(** The scan of lines 171-180 over the names of the ledger. *)
Fixpoint any_payment_matches (entries : ledger) (unpaid_normalized : str) : bool :=
  match entries with
  | [] => false
  | (payment_name, _) :: rest =>
      if name_matches unpaid_normalized payment_name then true
      else any_payment_matches rest unpaid_normalized
  end.

(** Lines 166-180. *)
Definition has_payment (payments : ledger) (unpaid_normalized : str) : bool :=
  if Dict.contains payments unpaid_normalized then true
  else any_payment_matches payments unpaid_normalized.

(** The second loop (lines 163-185). *)
Definition double_check (payments : ledger) (no_pay : gset str)
    (unpaid : list str) : list str :=
  fold_left
    (fun definitely_not_paid unpaid_guest =>
       let unpaid_normalized := normalize_name unpaid_guest in
       if has_payment payments unpaid_normalized then definitely_not_paid
       else if bool_decide (unpaid_normalized ∉ no_pay)
            then definitely_not_paid ++ [unpaid_guest]
            else definitely_not_paid)
    unpaid [].

(** The two lists that [main] prints. *)
Record report := {
  Blacklist : list str;
  DefinitelyUnpaid : list str
}.

Definition no_tally : tally := {| accounted_for := ∅; unpaid := [] |}.

(** [main], from the lines of the three text files and the rows of the
    guest table to the report; an exception leaves nothing printed. *)
Definition main (whitelist_lines no_pay_lines : list str) (rows : list row)
    (payment_lines : list str) : result report :=
  let whitelist := read_names whitelist_lines in
  let no_pay := read_names no_pay_lines in
  let g := read_guests whitelist rows in
  let payments := parse_payments payment_lines in
  t <- process_groups g payments no_tally (guest_structure g) ;;
  Ok {| Blacklist := blacklist g;
        DefinitelyUnpaid := double_check payments no_pay (unpaid t) |}.

(** ** Notions used to state the properties *)

(** The test of the second loop: a tentatively unpaid guest is reported
    when no payment is recorded for the name and the name is not exempt. *)
Definition stays_unpaid (payments : ledger) (no_pay : gset str) (guest : str) : bool :=
  negb (has_payment payments (normalize_name guest))
  && bool_decide (normalize_name guest ∉ no_pay).

(** A row of the guest table from three literals. *)
Definition mk_row (name status plus_one_of : string) : row :=
  {| Name := s2l name; Status := s2l status; IsPlusOneOf := s2l plus_one_of |}.

(** The rows that the first loop puts on the blacklist. *)
Definition blacklisted (whitelist : gset str) (r : row) : bool :=
  bool_decide (strip (Status r) = s2l "Going")
  && bool_decide (normalize_name (strip (Name r)) ∉ whitelist).

(** A float that compares as at least 0.0 (so neither negative nor a NaN). *)
Definition nonneg (x : float) : Prop := leb (Fin 0) x = true.

(** Every amount of a ledger is at least 0.0. *)
Definition nonneg_ledger (payments : ledger) : Prop :=
  Forall (fun entry => nonneg entry.2) payments.

(** The integers (in units) that are doubles: the bits below the 53
    leading ones are zero. *)
Definition format (n : Z) : Prop := n mod 2 ^ ulp_exp n = 0.

(** The floats that the ledger can hold: a double that is at least 0.0,
    or positive infinity. *)
Definition amount_ok (x : float) : Prop :=
  match x with
  | Fin n => 0 <= n < huge /\ format n
  | PInf => True
  | NInf | NaN => False
  end.

Definition ledger_ok (payments : ledger) : Prop :=
  Forall (fun entry => amount_ok entry.2) payments.

(** The test of line 80: the status, stripped, is exactly Going. *)
Definition is_going (r : row) : bool :=
  bool_decide (strip (Status r) = s2l "Going").

(** The names that a group contributes: the display name of its main
    guest, then its dependents in order. *)
Definition group_members (g : guests) (group : str * list str) : list str :=
  main_guest_name_of g group.1 :: group.2.


(** The key of the group that a row belongs to (lines 91-98): the
    normalized plus-one-of reference when there is one, the row's own
    normalized name otherwise. *)
Definition group_key (r : row) : str :=
  match strip (IsPlusOneOf r) with
  | [] => normalize_name (strip (Name r))
  | p => normalize_name p
  end.

(** The Going rows that are plus-ones of the group [key]. *)
Definition is_plus_one_of (key : str) (r : row) : bool :=
  is_going r
  && match strip (IsPlusOneOf r) with
     | [] => false
     | p => bool_decide (normalize_name p = key)
     end.

(** Each element once, at the place of its first occurrence. *)
Fixpoint first_occurrences (l : list str) : list str :=
  match l with
  | [] => []
  | x :: l' => x :: filter (fun y => y <> x) (first_occurrences l')
  end.




(** Text that is only whitespace, and a non-empty run of whitespace. *)
Definition blank (w : str) : Prop := Forall (fun c => is_space c = true) w.

Definition spaces (w : str) : Prop := w <> [] /\ blank w.

(** A word that equals [kw] when case is ignored. *)
Definition keyword (kw w : str) : Prop := lower w = lower kw.

(** What group 1 can hold: a letter, then one or more letters, spaces
    or apostrophes. *)
Definition payer_text (x : str) : Prop :=
  exists c rest,
    x = c :: rest /\ is_alpha c = true /\ rest <> [] /\
    Forall (fun c => name_char c = true) rest.

(** What group 2 can hold: one or more digits, then possibly a point
    and any number of digits. *)
Definition decimal_text (y : str) : Prop :=
  exists d1 d2,
    d1 <> [] /\ Forall (fun c => is_digit c = true) d1 /\
    Forall (fun c => is_digit c = true) d2 /\
    (y = d1 \/ y = d1 ++ "."%char :: d2).

(** The part that the two patterns share, with the verb left open. *)
Definition payment_pattern (verb : str) : regex :=
  Group 1 (Class is_alpha >>> Many false 1 name_char) >>>
  Many true 1 is_space >>> Lit verb >>>
  Many true 1 is_space >>> Lit (s2l "you") >>>
  Many true 1 is_space >>> amount_pattern.

(** A match of [payment_pattern verb] laid out on the text [s]: the
    payer, the three gaps, the two words, the amount and what follows. *)
Definition payment_layout (verb s payer amount rest : str) : Prop :=
  exists w1 v w2 y w3,
    s = payer ++ w1 ++ v ++ w2 ++ y ++ w3 ++ "$"%char :: amount ++ rest /\
    payer_text payer /\ spaces w1 /\ keyword verb v /\ spaces w2 /\
    keyword (s2l "you") y /\ spaces w3 /\ decimal_text amount.

(** What a name of the ledger looks like: normalized, and beginning
    with a lower-case letter. *)
Definition payer_key (k : str) : Prop :=
  normalize_name k = k /\ exists c r, k = c :: r /\ is_lower c = true.


(** Text whose last character is not whitespace. *)
Definition ends_word (x : str) : Prop :=
  exists x0 d, x = x0 ++ [d] /\ is_space d = false.

(** What follows an amount does not continue it: the line ends there,
    or goes on with a character that is neither a digit nor a point. *)
Definition amount_stops (rest : str) : Prop :=
  match rest with
  | [] => True
  | c :: _ => is_digit c = false /\ c <> "."%char
  end.

(** A payment line: optional whitespace, an optional prefix, the payer
    (a letter, then letters, spaces or apostrophes, ending in a
    non-space character), the verb and the word you in any case, each
    after one or more whitespace characters, a dollar sign after
    whitespace, the amount, and a remainder without a dollar sign that
    does not continue the amount. *)
Definition payment_line (verb pre raw payer amount : str) : Prop :=
  exists lead w1 v w2 y w3 rest,
    raw = lead ++ pre ++ payer ++ w1 ++ v ++ w2 ++ y ++ w3
          ++ "$"%char :: amount ++ rest /\
    blank lead /\ payer_text payer /\ ends_word payer /\
    spaces w1 /\ keyword verb v /\ spaces w2 /\ keyword (s2l "you") y /\
    spaces w3 /\ decimal_text amount /\ amount_stops rest /\
    "$"%char ∉ rest.

(** The optional prefix of the sent pattern: nothing, or BofA: in any
    case followed by whitespace. *)
Definition bofa_prefix (pre : str) : Prop :=
  pre = [] \/ exists b w0, pre = b ++ w0 /\ keyword (s2l "BofA:") b /\ spaces w0.

(** What the two branches of [parse_payments] do with a payer and an
    amount: the amount is added to what the payer has paid so far,
    counting an absent payer as 0.0. *)
Definition credit (payments : ledger) (payer amount : str) : ledger :=
  Dict.set payments (normalize_name payer)
    (add (default (Fin 0) (Dict.get payments (normalize_name payer)))
         (of_decimal amount)).

(** What follows group 1 in the two patterns. *)
Definition words_pattern (verb : str) : regex :=
  Many true 1 is_space >>> Lit verb >>>
  Many true 1 is_space >>> Lit (s2l "you") >>>
  Many true 1 is_space >>> amount_pattern.

(** A display name that comes from a Going row of the table. *)
Definition going_name (rows : list row) (name : str) : Prop :=
  exists r, r ∈ rows /\ is_going r = true /\ name = strip (Name r).

(** The values of a lookup table are names of Going rows. *)
Definition names_from_rows (rows : list row) (m : gmap str str) : Prop :=
  forall k v, m !! k = Some v -> going_name rows v.
Lemma startswith_refl s : startswith s s = true.
Proof.
  induction s as [|c s IH]; simpl; [done|].
  by rewrite bool_decide_eq_true_2.
Qed.

Lemma str_in_refl s : str_in s s = true.
Proof. destruct s; simpl; [done|]. by rewrite bool_decide_eq_true_2, startswith_refl. Qed.

Lemma name_matches_spec a b : name_matches a b = spec_matches a b.
Proof.
  unfold name_matches, spec_matches.
  destruct (bool_decide (a = b)) eqn:E.
  - apply bool_decide_eq_true in E. subst b. by rewrite str_in_refl.
  - simpl. destruct (str_in a b), (str_in b a),
      (bool_decide (first_word a = first_word b)),
      (str_in (first_word a) b), (str_in (first_word b) a); reflexivity.
Qed.

Lemma name_matches_sym a b : name_matches a b = name_matches b a.
Proof.
  unfold name_matches.
  rewrite (bool_decide_ext (first_word a = first_word b)
             (first_word b = first_word a)) by (split; congruence).
  destruct (str_in a b), (str_in b a),
    (bool_decide (first_word b = first_word a)),
    (str_in (first_word a) b), (str_in (first_word b) a); reflexivity.
Qed.

(** C7. The fuzzy-match predicate of the code is the five-way
    disjunction of the specification, it holds for (a, b) exactly when
    it holds for (b, a), and it is not transitive: "al" matches "al bo",
    "al bo" matches "bo", and "al" does not match "bo". *)
Theorem C7_matches_symmetric_not_transitive :
  (forall a b : str, name_matches a b = spec_matches a b) /\
  (forall a b : str, name_matches a b = true <-> name_matches b a = true) /\
  (exists a b c : str,
      name_matches a b = true /\ name_matches b c = true /\
      name_matches a c = false).
Proof.
  split; [exact name_matches_spec|]. split.
  - intros a b. by rewrite name_matches_sym.
  - exists (s2l "al"), (s2l "al bo"), (s2l "bo").
    by vm_compute.
Qed.


(** * Properties of the model of floats *)

Module Float64Facts.

Lemma unit_pos : 0 < unit.
Proof. reflexivity. Qed.

Lemma huge_pos : 0 < huge.
Proof. reflexivity. Qed.

Lemma ulp_exp_nonneg f : 0 <= ulp_exp f.
Proof. unfold ulp_exp. lia. Qed.

Lemma div_half_even_bounds p q :
  0 < q -> p / q <= div_half_even p q <= p / q + 1.
Proof.
  intros Hq. unfold div_half_even.
  destruct (2 * (p mod q) ?= q); [destruct (Z.even (p / q))|..]; lia.
Qed.

Lemma div_half_even_nonneg p q : 0 <= p -> 0 < q -> 0 <= div_half_even p q.
Proof.
  intros Hp Hq. pose proof (div_half_even_bounds p q Hq).
  pose proof (Z.div_pos p q Hp Hq). lia.
Qed.

Lemma round_pos_nonneg p q : 0 <= p -> 0 < q -> nonneg (round_pos p q).
Proof.
  intros Hp Hq. unfold round_pos, nonneg.
  set (s := ulp_exp (p / q)).
  assert (0 < 2 ^ s) by (apply Z.pow_pos_nonneg; [lia|apply ulp_exp_nonneg]).
  pose proof (div_half_even_nonneg p (q * 2 ^ s) Hp ltac:(lia)).
  destruct (_ <? huge); simpl; [|done].
  apply Z.leb_le. lia.
Qed.

Lemma round_nonneg p q : 0 <= p -> 0 < q -> nonneg (round p q).
Proof.
  intros Hp Hq. unfold round.
  rewrite (proj2 (Z.leb_le 0 p) Hp). by apply round_pos_nonneg.
Qed.

Lemma add_nonneg x y : nonneg x -> nonneg y -> nonneg (add x y).
Proof.
  unfold nonneg. destruct x as [a| | |], y as [b| | |]; simpl; try done.
  intros Ha%Z.leb_le Hb%Z.leb_le. apply round_nonneg; lia.
Qed.

Lemma digit_value_nonneg c : is_digit c = true -> 0 <= digit_value c <= 9.
Proof.
  unfold is_digit, digit_value. intros H.
  apply andb_true_iff in H as [H1%N.leb_le H2%N.leb_le]. lia.
Qed.

Lemma digits_value_from_nonneg ds acc :
  Forall (fun c => is_digit c = true) ds -> 0 <= acc ->
  0 <= fold_left (fun acc c => 10 * acc + digit_value c) ds acc.
Proof.
  intros Hds. revert acc. induction Hds as [|c ds Hc _ IH]; intros acc Hacc; simpl.
  - done.
  - apply IH. pose proof (digit_value_nonneg c Hc). lia.
Qed.

Lemma take_while_Forall p s : Forall (fun c => p c = true) (take_while p s).
Proof.
  induction s as [|c s IH]; simpl; [constructor|].
  destruct (p c) eqn:E; by constructor.
Qed.

Lemma of_decimal_nonneg s : nonneg (of_decimal s).
Proof.
  unfold of_decimal. apply round_nonneg.
  - apply Z.mul_nonneg_nonneg; [|by pose proof unit_pos; lia].
    apply digits_value_from_nonneg; [|lia].
    apply Forall_app. split; [apply take_while_Forall|].
    destruct (drop_while is_digit s) as [|c r]; [constructor|].
    destruct (bool_decide _); [apply take_while_Forall|constructor].
  - apply Z.pow_pos_nonneg; lia.
Qed.


(** *** Rounding against a double *)

Lemma div_half_even_ge p q m : 0 < q -> m * q <= p -> m <= div_half_even p q.
Proof.
  intros Hq H. pose proof (div_half_even_bounds p q Hq).
  assert (m <= p / q) by (apply Z.div_le_lower_bound; lia). lia.
Qed.

Lemma div_half_even_le p q m : 0 < q -> p <= m * q -> div_half_even p q <= m.
Proof.
  intros Hq H. destruct (Z.eq_dec p (m * q)) as [->|Hne].
  - unfold div_half_even. rewrite Z.div_mul, Z.mod_mul by lia.
    assert (E : (2 * 0 ?= q) = Lt) by (apply Z.compare_lt_iff; lia).
    rewrite E. lia.
  - pose proof (div_half_even_bounds p q Hq).
    assert (p / q < m) by (apply Z.div_lt_upper_bound; lia). lia.
Qed.

Lemma ulp_exp_mono a b : 0 <= a <= b -> ulp_exp a <= ulp_exp b.
Proof.
  intros H. unfold ulp_exp. pose proof (Z.log2_le_mono a b ltac:(lia)). lia.
Qed.

Lemma log2_lt_of_ulp_exp_lt a b : ulp_exp a < ulp_exp b -> Z.log2 a < Z.log2 b.
Proof. unfold ulp_exp. lia. Qed.

Lemma pow2_pos e : 0 <= e -> 0 < 2 ^ e.
Proof. intros. by apply Z.pow_pos_nonneg. Qed.

Lemma format_multiple n : format n -> exists m, n = m * 2 ^ ulp_exp n.
Proof.
  unfold format. intros H. exists (n / 2 ^ ulp_exp n).
  pose proof (pow2_pos _ (ulp_exp_nonneg n)).
  pose proof (Z.div_mod n (2 ^ ulp_exp n) ltac:(lia)). lia.
Qed.

(** The integer part [f] of what is rounded, and the bits kept. *)
Lemma floor_pow2_bounds f :
  0 <= f -> 2 ^ (ulp_exp f + (prec - 1)) <= f \/ ulp_exp f = 0.
Proof.
  intros Hf. unfold ulp_exp, prec.
  destruct (Z.max_spec 0 (Z.log2 f + 1 - 53)) as [[H ->]|[H ->]]; [|by right].
  left. replace (Z.log2 f + 1 - 53 + (53 - 1)) with (Z.log2 f) by lia.
  destruct (Z.eq_dec f 0) as [->|]; [simpl in H; lia|].
  apply Z.log2_spec. lia.
Qed.

Lemma floor_lt_pow2 f : 0 <= f -> f < 2 ^ (ulp_exp f + prec).
Proof.
  intros Hf. destruct (Z.eq_dec f 0) as [->|Hne].
  - apply pow2_pos. pose proof (ulp_exp_nonneg 0). unfold prec. lia.
  - pose proof (Z.log2_spec f ltac:(lia)) as [_ Hlt].
    eapply Z.lt_le_trans; [exact Hlt|].
    apply Z.pow_le_mono_r; [lia|]. unfold ulp_exp, prec. lia.
Qed.

(** A double [M] at or below what is rounded is at or below the result. *)
Lemma round_pos_ge p q M :
  0 < q -> 0 <= M -> format M -> M * q <= p ->
  match round_pos p q with
  | Fin r => M <= r
  | PInf => True
  | NInf | NaN => False
  end.
Proof.
  intros Hq HM HfM Hle. unfold round_pos.
  set (f := p / q). set (s := ulp_exp f).
  assert (Hf : M <= f) by (apply Z.div_le_lower_bound; lia).
  assert (Hs0 : 0 <= s) by apply ulp_exp_nonneg.
  pose proof (pow2_pos s Hs0) as Hp2.
  assert (Hr : M <= div_half_even p (q * 2 ^ s) * 2 ^ s).
  { pose proof (ulp_exp_mono M f ltac:(lia)) as Hmono. fold s in Hmono.
    destruct (Z.eq_dec (ulp_exp M) s) as [Heq|Hne].
    - destruct (format_multiple M HfM) as [m Hm]. rewrite Heq in Hm.
      assert (m <= div_half_even p (q * 2 ^ s)).
      { apply div_half_even_ge; [lia|]. subst M. lia. }
      subst M. nia.
    - assert (Hlog : Z.log2 M < Z.log2 f)
        by (apply log2_lt_of_ulp_exp_lt; fold s; lia).
      assert (Hfpos : 0 < f).
      { destruct (Z.eq_dec f 0) as [E|]; [|lia].
        rewrite E in Hlog. simpl in Hlog. pose proof (Z.log2_nonneg M). lia. }
      pose proof (ulp_exp_nonneg M) as HsM.
      destruct (floor_pow2_bounds f ltac:(lia)) as [Hb|Hb]; fold s in Hb; [|lia].
      assert (HMlt : M < 2 ^ (s + (prec - 1))).
      { destruct (Z.eq_dec M 0) as [->|]; [apply pow2_pos; unfold prec; lia|].
        pose proof (Z.log2_spec M ltac:(lia)) as [_ Hlt].
        eapply Z.lt_le_trans; [exact Hlt|].
        apply Z.pow_le_mono_r; [lia|].
        unfold s, ulp_exp, prec in *. lia. }
      assert (2 ^ (prec - 1) <= div_half_even p (q * 2 ^ s)).
      { apply div_half_even_ge; [lia|].
        assert (f * q <= p).
        { unfold f. pose proof (Z.mul_div_le p q Hq). lia. }
        rewrite Z.pow_add_r in Hb by (unfold prec; lia). nia. }
      rewrite Z.pow_add_r in HMlt by (unfold prec; lia). nia. }
  destruct (_ <? huge); [exact Hr|exact I].
Qed.

Lemma div_half_even_le_pow2 p q s :
  0 <= p -> 0 < q -> s = ulp_exp (p / q) ->
  div_half_even p (q * 2 ^ s) <= 2 ^ prec.
Proof.
  intros Hp Hq ->. set (f := p / q). set (s := ulp_exp f).
  assert (Hs0 : 0 <= s) by apply ulp_exp_nonneg.
  pose proof (pow2_pos s Hs0).
  apply div_half_even_le; [lia|].
  assert (Hf0 : 0 <= f) by (apply Z.div_pos; lia).
  pose proof (floor_lt_pow2 f Hf0) as Hlt. fold s in Hlt.
  rewrite Z.pow_add_r in Hlt by (unfold prec; lia).
  assert (p < (f + 1) * q).
  { unfold f. pose proof (Z.mod_pos_bound p q Hq).
    pose proof (Z.div_mod p q ltac:(lia)). lia. }
  nia.
Qed.

(** A double [M] at or above what is rounded is at or above the result. *)
Lemma round_pos_le p q M :
  0 <= p -> 0 < q -> format M -> p <= M * q -> M < huge ->
  exists r, round_pos p q = Fin r /\ 0 <= r <= M.
Proof.
  intros Hp Hq HfM Hle Hhuge. unfold round_pos.
  set (f := p / q). set (s := ulp_exp f).
  assert (Hf0 : 0 <= f) by (apply Z.div_pos; lia).
  assert (Hf : f <= M) by (apply Z.div_le_upper_bound; lia).
  assert (Hs0 : 0 <= s) by apply ulp_exp_nonneg.
  pose proof (pow2_pos s Hs0) as Hp2.
  pose proof (div_half_even_nonneg p (q * 2 ^ s) Hp ltac:(lia)) as Hm0.
  assert (Hr : div_half_even p (q * 2 ^ s) * 2 ^ s <= M).
  { pose proof (ulp_exp_mono f M ltac:(lia)) as Hmono. fold s in Hmono.
    destruct (Z.eq_dec (ulp_exp M) s) as [Heq|Hne].
    - destruct (format_multiple M HfM) as [m Hm]. rewrite Heq in Hm.
      assert (div_half_even p (q * 2 ^ s) <= m).
      { apply div_half_even_le; [lia|]. subst M. lia. }
      subst M. nia.
    - pose proof (div_half_even_le_pow2 p q s Hp Hq eq_refl) as Hm.
      assert (HM : 2 ^ (s + prec) <= M).
      { assert (0 < M).
        { destruct (Z.eq_dec M 0) as [E|]; [|lia].
          assert (Ef : f = 0) by lia.
          unfold s in Hne. rewrite Ef, E in Hne. done. }
        pose proof (Z.log2_spec M ltac:(lia)) as [Hlo _].
        eapply Z.le_trans; [|exact Hlo].
        apply Z.pow_le_mono_r; [lia|].
        unfold ulp_exp, prec in *. lia. }
      rewrite Z.pow_add_r in HM by (unfold prec; lia). nia. }
  exists (div_half_even p (q * 2 ^ s) * 2 ^ s).
  rewrite (proj2 (Z.ltb_lt _ _)) by lia. split; [done|nia].
Qed.

(** What rounding gives is a double, or positive infinity. *)
Lemma round_pos_ok p q : 0 <= p -> 0 < q -> amount_ok (round_pos p q).
Proof.
  intros Hp Hq. unfold round_pos.
  set (s := ulp_exp (p / q)). set (m := div_half_even p (q * 2 ^ s)).
  assert (Hs0 : 0 <= s) by apply ulp_exp_nonneg.
  pose proof (pow2_pos s Hs0) as Hp2.
  assert (Hm0 : 0 <= m) by (apply div_half_even_nonneg; lia).
  assert (Hm : m <= 2 ^ prec) by (by apply div_half_even_le_pow2).
  destruct (m * 2 ^ s <? huge) eqn:E; simpl; [|done].
  apply Z.ltb_lt in E. split; [nia|].
  unfold format.
  destruct (Z.eq_dec m 0) as [->|Hne0]; [done|].
  destruct (Z.eq_dec m (2 ^ prec)) as [->|Hne].
  - rewrite <- Z.pow_add_r by (unfold prec; lia).
    assert (Hu : ulp_exp (2 ^ (prec + s)) = s + 1).
    { unfold ulp_exp. rewrite Z.log2_pow2 by (unfold prec; lia).
      unfold prec. lia. }
    rewrite Hu.
    replace (prec + s) with ((prec - 1) + (s + 1)) by lia.
    rewrite Z.pow_add_r by (unfold prec; lia).
    apply Z.mod_mul. pose proof (pow2_pos (s + 1)). lia.
  - assert (Hlog : Z.log2 m < prec).
    { apply Z.log2_lt_pow2; lia. }
    set (u := ulp_exp (m * 2 ^ s)).
    assert (Hu : 0 <= u <= s).
    { unfold u, ulp_exp. rewrite Z.log2_mul_pow2 by lia. lia. }
    replace s with ((s - u) + u) by lia.
    rewrite Z.pow_add_r by lia. rewrite Z.mul_assoc.
    apply Z.mod_mul. pose proof (pow2_pos u). lia.
Qed.

Lemma round_ok p q : 0 <= p -> 0 < q -> amount_ok (round p q).
Proof.
  intros Hp Hq. unfold round.
  rewrite (proj2 (Z.leb_le 0 p) Hp). by apply round_pos_ok.
Qed.

Lemma of_decimal_ok s : amount_ok (of_decimal s).
Proof.
  unfold of_decimal. apply round_ok.
  - apply Z.mul_nonneg_nonneg; [|by pose proof unit_pos; lia].
    apply digits_value_from_nonneg; [|lia].
    apply Forall_app. split; [apply take_while_Forall|].
    destruct (drop_while is_digit s) as [|c r]; [constructor|].
    destruct (bool_decide _); [apply take_while_Forall|constructor].
  - apply Z.pow_pos_nonneg; lia.
Qed.

Lemma add_ok x y : amount_ok x -> amount_ok y -> amount_ok (add x y).
Proof.
  destruct x as [a| | |], y as [b| | |]; simpl; try done.
  intros [Ha _] [Hb _]. apply round_ok; lia.
Qed.

Lemma amount_ok_nonneg x : amount_ok x -> nonneg x.
Proof.
  unfold nonneg. destruct x as [a| | |]; simpl; try done.
  intros [Ha _]. apply Z.leb_le. lia.
Qed.

Lemma format_mul_pow2 m e : 0 < m < 2 ^ prec -> 0 <= e -> format (m * 2 ^ e).
Proof.
  intros Hm He. unfold format.
  assert (Hlog : Z.log2 m < prec) by (apply Z.log2_lt_pow2; lia).
  set (u := ulp_exp (m * 2 ^ e)).
  assert (Hu : 0 <= u <= e).
  { unfold u, ulp_exp. rewrite Z.log2_mul_pow2 by lia. lia. }
  replace e with ((e - u) + u) by lia.
  rewrite Z.pow_add_r by lia. rewrite Z.mul_assoc.
  apply Z.mod_mul. pose proof (pow2_pos u). lia.
Qed.

(** *** Division by the price and truncation *)

Lemma div_pos_divisor a b :
  0 < b -> div (Fin a) (Fin b) = Ok (round (a * unit) b).
Proof. intros Hb. destruct b; [lia|reflexivity|lia]. Qed.

Lemma round_of_nonneg p q : 0 <= p -> round p q = round_pos p q.
Proof. intros Hp. unfold round. by rewrite (proj2 (Z.leb_le 0 p) Hp). Qed.

End Float64Facts.

Import Float64Facts.

(** * Properties *)

(** ** The payment extractor skips headers *)

Lemma parse_payments_app pre post :
  parse_payments (pre ++ post) = fold_left parse_line post (parse_payments pre).
Proof. unfold parse_payments. apply fold_left_app. Qed.

(** C8. A line that, stripped, ends with a colon and contains neither
    paid nor sent in any case leaves the ledger as it is: the iteration
    on it returns the ledger unchanged, and the ledger of a whole file
    is the ledger of the file without that line. *)
Theorem C8_header_line_contributes_nothing (raw : str) :
  endswith_char (strip raw) ":"%char = true ->
  str_in (s2l "paid") (lower (strip raw)) = false ->
  str_in (s2l "sent") (lower (strip raw)) = false ->
  (forall payments : ledger, parse_line payments raw = payments) /\
  (forall pre post : list str,
      parse_payments (pre ++ raw :: post) = parse_payments (pre ++ post)).
Proof.
  intros Hend Hpaid Hsent.
  assert (Hline : forall payments : ledger, parse_line payments raw = payments).
  { intros payments. unfold parse_line, is_header.
    rewrite Hend, Hpaid, Hsent. simpl. by destruct (strip raw). }
  split; [exact Hline|].
  intros pre post. rewrite !parse_payments_app. simpl. by rewrite Hline.
Qed.

Lemma C8_header_line_witness :
  parse_payments (map s2l ["Al Ma paid you $5"; "86753:"; "Bo Li sent you $5"])
  = parse_payments (map s2l ["Al Ma paid you $5"; "Bo Li sent you $5"]).
Proof.
  exact (proj2 (C8_header_line_contributes_nothing (s2l "86753:")
                  eq_refl eq_refl eq_refl)
           [s2l "Al Ma paid you $5"] [s2l "Bo Li sent you $5"]).
Defined.

(** ** Resolution of a group's payment *)

Lemma dict_get_find {V} (d : list (str * V)) key :
  Dict.get d key = snd <$> find (fun e => bool_decide (e.1 = key)) d.
Proof.
  induction d as [|[k v] d IH]; simpl; [done|].
  by destruct (bool_decide (k = key)).
Qed.

Lemma scan_payments_find entries key amount0 :
  scan_payments entries key amount0 =
  match find (fun e => name_matches key e.1) entries with
  | Some e => e.2
  | None => amount0
  end.
Proof.
  induction entries as [|[n a] entries IH]; simpl; [done|].
  by destruct (name_matches key n).
Qed.

(** C6. The amount of a group is looked up under the exact normalized
    name, 0.0 when the name is absent; when that amount is not 0.0 it is
    the resolved amount and no scan takes place; when it is 0.0 the
    resolved amount is that of the first entry of the ledger, in
    insertion order, whose name passes the fuzzy test against the group
    key, if there is one. *)
Theorem C6_exact_lookup_then_first_fuzzy_match (payments : ledger) (key : str) :
  let exact :=
    match find (fun e => bool_decide (e.1 = key)) payments with
    | Some e => e.2
    | None => Fin 0
    end in
  resolve_payment payments key =
  if Float64.eqb exact (Fin 0)
  then match find (fun e => name_matches key e.1) payments with
       | Some e => e.2
       | None => exact
       end
  else exact.
Proof.
  unfold resolve_payment. rewrite dict_get_find, scan_payments_find.
  by destruct (find (fun e => bool_decide (e.1 = key)) payments).
Qed.

(** ** The second pass *)

Lemma double_check_from payments no_pay unpaid acc :
  fold_left
    (fun definitely_not_paid unpaid_guest =>
       let unpaid_normalized := normalize_name unpaid_guest in
       if has_payment payments unpaid_normalized then definitely_not_paid
       else if bool_decide (unpaid_normalized ∉ no_pay)
            then definitely_not_paid ++ [unpaid_guest]
            else definitely_not_paid)
    unpaid acc
  = acc ++ List.filter (stays_unpaid payments no_pay) unpaid.
Proof.
  revert acc. induction unpaid as [|g unpaid IH]; intros acc; simpl.
  - by rewrite app_nil_r.
  - rewrite IH. unfold stays_unpaid.
    destruct (has_payment payments (normalize_name g)); simpl; [done|].
    destruct (bool_decide (normalize_name g ∉ no_pay)); simpl; [|done].
    by rewrite <- app_assoc.
Qed.

Lemma double_check_filter payments no_pay unpaid :
  double_check payments no_pay unpaid
  = List.filter (stays_unpaid payments no_pay) unpaid.
Proof. unfold double_check. by rewrite double_check_from. Qed.

Lemma main_Ok_inv wl np rows pay r :
  main wl np rows pay = Ok r ->
  exists t,
    process_groups (read_guests (read_names wl) rows) (parse_payments pay)
      no_tally (guest_structure (read_guests (read_names wl) rows)) = Ok t /\
    r = {| Blacklist := blacklist (read_guests (read_names wl) rows);
           DefinitelyUnpaid :=
             double_check (parse_payments pay) (read_names np) (unpaid t) |}.
Proof.
  unfold main.
  destruct (process_groups _ _ _ _) as [t|e]; simpl; [|done].
  intros [= <-]. by exists t.
Qed.

(** C3. Whatever the four inputs are, when [main] prints its report no
    name of the DefinitelyUnpaid list has its normalized form in the
    no-pay set. *)
Theorem C3_no_pay_never_reported
    (whitelist_lines no_pay_lines : list str) (rows : list row)
    (payment_lines : list str) (r : report) :
  main whitelist_lines no_pay_lines rows payment_lines = Ok r ->
  forall guest : str,
    guest ∈ DefinitelyUnpaid r ->
    normalize_name guest ∉ read_names no_pay_lines.
Proof.
  intros Hmain guest Hin.
  apply main_Ok_inv in Hmain as (t & _ & ->). simpl in Hin.
  rewrite double_check_filter in Hin.
  apply list_elem_of_In, filter_In in Hin as [_ Hstay].
  unfold stays_unpaid in Hstay.
  apply andb_true_iff in Hstay as [_ Hnp].
  by apply bool_decide_eq_true in Hnp.
Qed.

Lemma C3_no_pay_witness :
  normalize_name (s2l "Bob Jones") ∉ read_names [s2l "alice smith"].
Proof.
  apply (C3_no_pay_never_reported [] [s2l "alice smith"]
           [mk_row "Alice Smith" "Going" ""; mk_row "Bob Jones" "Going" "Alice Smith"]
           [] {| Blacklist := [s2l "Alice Smith"; s2l "Bob Jones"];
                 DefinitelyUnpaid := [s2l "Bob Jones"] |}).
  - vm_compute. reflexivity.
  - simpl. apply list_elem_of_In. simpl. by left.
Defined.

(** ** The blacklist *)

Lemma read_row_blacklist whitelist g r :
  blacklist (read_row whitelist g r) =
  blacklist g ++ (if blacklisted whitelist r then [strip (Name r)] else []).
Proof.
  unfold read_row, blacklisted.
  destruct (decide (strip (Status r) = s2l "Going")) as [Hs|Hs].
  - rewrite (bool_decide_eq_false_2 (strip (Status r) <> s2l "Going")) by tauto.
    rewrite (bool_decide_eq_true_2 _ Hs). simpl.
    destruct (strip (IsPlusOneOf r)); simpl;
      destruct (bool_decide (normalize_name (strip (Name r)) ∉ whitelist));
      simpl; by rewrite ?app_nil_r.
  - rewrite (bool_decide_eq_true_2 _ Hs), (bool_decide_eq_false_2 _ Hs). simpl.
    by rewrite app_nil_r.
Qed.

Lemma read_guests_blacklist_from whitelist rows g :
  blacklist (fold_left (read_row whitelist) rows g) =
  blacklist g ++ map (fun r => strip (Name r)) (List.filter (blacklisted whitelist) rows).
Proof.
  revert g. induction rows as [|r rows IH]; intros g; simpl.
  - by rewrite app_nil_r.
  - rewrite IH, read_row_blacklist.
    destruct (blacklisted whitelist r); simpl; by rewrite <- app_assoc.
Qed.

(** C4. The blacklist that the first loop builds is, in the order of the
    rows, the display name of every row whose status is Going and whose
    normalized name is not in the whitelist; the loop never reads the
    payments, and whenever [main] prints a report, whatever the payment
    lines are, its blacklist is that list. *)
Theorem C4_blacklist_in_row_order_independent_of_payments
    (whitelist_lines no_pay_lines : list str) (rows : list row) :
  let expected :=
    map (fun r => strip (Name r))
        (List.filter (blacklisted (read_names whitelist_lines)) rows) in
  blacklist (read_guests (read_names whitelist_lines) rows) = expected /\
  forall (payment_lines : list str) (r : report),
    main whitelist_lines no_pay_lines rows payment_lines = Ok r ->
    Blacklist r = expected.
Proof.
  intros expected.
  assert (H : blacklist (read_guests (read_names whitelist_lines) rows) = expected).
  { unfold read_guests. by rewrite read_guests_blacklist_from. }
  split; [exact H|].
  intros payment_lines r Hmain.
  apply main_Ok_inv in Hmain as (t & _ & ->). exact H.
Qed.

Lemma C4_blacklist_witness :
  Blacklist {| Blacklist := [s2l "Bob Jones"]; DefinitelyUnpaid := [] |}
  = map (fun r => strip (Name r))
      (List.filter (blacklisted (read_names [s2l "alice smith"]))
         [mk_row "Alice Smith" "Going" ""; mk_row " Bob Jones" "Going" "Alice Smith";
          mk_row "Carl" "Maybe" ""]).
Proof.
  apply (proj2 (C4_blacklist_in_row_order_independent_of_payments
                  [s2l "alice smith"] []
                  [mk_row "Alice Smith" "Going" ""; mk_row " Bob Jones" "Going" "Alice Smith";
                   mk_row "Carl" "Maybe" ""])
           [s2l "Alice Smith paid you $10.00"]).
  vm_compute. reflexivity.
Defined.

(** ** Duplicates in the reports *)

(** C10. Neither report removes duplicates: two Going rows of one name
    that is not whitelisted put that name on the blacklist twice, and a
    name that is a plus-one under two main guests is reported unpaid
    twice. *)
Theorem C10_reports_may_hold_duplicates :
  (exists (rows : list row) (r : report),
      rows = [mk_row "Zed" "Going" ""; mk_row "Zed" "Going" ""] /\
      main [] [] rows [] = Ok r /\
      Blacklist r = [s2l "Zed"; s2l "Zed"]) /\
  (exists (rows : list row) (r : report),
      rows = [mk_row "Alice" "Going" ""; mk_row "Carol" "Going" "";
              mk_row "Zed" "Going" "Alice"; mk_row "Zed" "Going" "Carol"] /\
      main [] [] rows [s2l "Alice paid you $5"; s2l "Carol paid you $5"] = Ok r /\
      guest_structure (read_guests ∅ rows)
      = [(s2l "alice", [s2l "Zed"]); (s2l "carol", [s2l "Zed"])] /\
      DefinitelyUnpaid r = [s2l "Zed"; s2l "Zed"]).
Proof.
  split.
  - do 2 eexists. split; [reflexivity|].
    split; [vm_compute; reflexivity|]. reflexivity.
  - do 2 eexists. split; [reflexivity|].
    split; [vm_compute; reflexivity|]. split; reflexivity.
Qed.

(** ** The ledger during and after [parse_payments] *)

Section DictFacts.
Context {V : Type} (P : V -> Prop).

Lemma dict_get_Forall (d : list (str * V)) key v :
  Forall (fun e => P e.2) d -> Dict.get d key = Some v -> P v.
Proof.
  induction 1 as [|[k w] d Hw _ IH]; simpl; [done|].
  destruct (bool_decide (k = key)); [by intros [= <-]|exact IH].
Qed.

Lemma dict_set_Forall (d : list (str * V)) key v :
  Forall (fun e => P e.2) d -> P v -> Forall (fun e => P e.2) (Dict.set d key v).
Proof.
  intros Hd Hv. induction Hd as [|[k w] d Hw Hd IH]; simpl.
  - by constructor.
  - destruct (bool_decide (k = key)); by constructor.
Qed.
End DictFacts.

Lemma record_payment_nonneg payments m :
  nonneg_ledger payments -> nonneg_ledger (record_payment payments m).
Proof.
  intros H. unfold record_payment, nonneg_ledger.
  destruct (Dict.get payments _) as [paid|] eqn:E.
  - apply dict_set_Forall; [done|].
    apply add_nonneg; [|apply of_decimal_nonneg].
    exact (dict_get_Forall nonneg _ _ _ H E).
  - apply dict_set_Forall; [done|apply of_decimal_nonneg].
Qed.

Lemma parse_line_nonneg payments raw :
  nonneg_ledger payments -> nonneg_ledger (parse_line payments raw).
Proof.
  intros H. unfold parse_line.
  destruct (strip raw); [done|].
  destruct (is_header _); [done|].
  destruct (search paid_pattern _); [by apply record_payment_nonneg|].
  destruct (search sent_pattern _); [by apply record_payment_nonneg|done].
Qed.

Lemma fold_parse_line_nonneg lines payments :
  nonneg_ledger payments -> nonneg_ledger (fold_left parse_line lines payments).
Proof.
  revert payments. induction lines as [|l lines IH]; intros payments H; simpl.
  - done.
  - by apply IH, parse_line_nonneg.
Qed.

(** C9. For every text, the ledger after each number [n] of lines has
    been processed, and so the ledger that is returned, holds only
    amounts that compare as at least 0.0: a matched line adds a parsed
    amount that is at least 0.0 to a sum that is at least 0.0.  (A sum
    that overflows is the float of positive infinity, which also compares
    as at least 0.0.) *)
Theorem C9_ledger_amounts_nonnegative (lines : list str) :
  (forall n : nat, nonneg_ledger (fold_left parse_line (take n lines) [])) /\
  nonneg_ledger (parse_payments lines) /\
  (forall amount_text : str, nonneg (of_decimal amount_text)).
Proof.
  split; [|split].
  - intros n. apply fold_parse_line_nonneg. constructor.
  - apply fold_parse_line_nonneg. constructor.
  - apply of_decimal_nonneg.
Qed.

(** ** How many guests an amount covers *)

Lemma PRICE_PER_GUEST_eq : PRICE_PER_GUEST = Fin (5 * unit).
Proof. vm_compute. reflexivity. Qed.

Lemma guests_covered_of_Fin n :
  0 <= n ->
  guests_covered_of (Fin n) = to_int (round_pos (n * unit) (5 * unit)).
Proof.
  intros Hn. unfold guests_covered_of. rewrite PRICE_PER_GUEST_eq.
  pose proof unit_pos.
  rewrite div_pos_divisor by lia. simpl.
  rewrite round_of_nonneg by nia. done.
Qed.


(** A double below 5.0 covers no guest. *)
Lemma guests_covered_lt n :
  0 <= n -> format n -> n < 5 * unit -> guests_covered_of (Fin n) = Ok 0.
Proof.
  intros Hn Hf Hlt. pose proof unit_pos as Hu.
  rewrite guests_covered_of_Fin by lia.
  set (e := 2 ^ 1021).
  assert (He : 0 < e) by done.
  assert (Hunit : unit = 2 ^ prec * e) by reflexivity.
  assert (Hbound : n <= 5 * unit - 8 * e).
  { destruct (Z_lt_le_dec (Z.log2 n) 1076) as [Hlog|Hlog].
    - assert (n < 2 ^ 1076).
      { destruct (Z.eq_dec n 0) as [->|]; [done|].
        apply Z.log2_lt_pow2; lia. }
      assert (2 ^ 1076 = 4 * unit) by reflexivity.
      assert (8 * e <= unit) by (rewrite Hunit; unfold prec; lia).
      lia.
    - destruct (format_multiple n Hf) as [m Hm].
      assert (Hpos : 0 < n).
      { destruct (Z.eq_dec n 0) as [E|]; [|lia].
        rewrite E in Hlog. simpl in Hlog. lia. }
      assert (Hlog' : Z.log2 n < 1077).
      { apply Z.log2_lt_pow2; [lia|].
        assert (5 * unit < 2 ^ 1077) by done. lia. }
      assert (Hue : ulp_exp n = 1024) by (unfold ulp_exp, prec; lia).
      rewrite Hue in Hm.
      assert (H1024 : 2 ^ 1024 = 8 * e) by reflexivity.
      assert (H5 : 5 * unit = 5 * 2 ^ 50 * (8 * e)) by reflexivity.
      rewrite H1024 in Hm. rewrite H5 in Hlt |- *. nia. }
  assert (Hfm : format ((2 ^ prec - 1) * 2 ^ 1021))
    by (apply format_mul_pow2; done).
  fold e in Hfm.
  destruct (round_pos_le (n * unit) (5 * unit) ((2 ^ prec - 1) * e)
              ltac:(nia) ltac:(lia) Hfm) as (r & Hr & Hr0 & Hr1).
  - rewrite Hunit in Hbound |- *. unfold prec in *. nia.
  - assert (huge = 2 ^ 1024 * unit) by reflexivity.
    rewrite Hunit in *. unfold prec in *. nia.
  - rewrite Hr. simpl. f_equal.
    apply Z.quot_small. rewrite Hunit. unfold prec in *. lia.
Qed.

(** ** The ledger holds doubles that are at least 0.0 *)

Lemma record_payment_ok payments m :
  ledger_ok payments -> ledger_ok (record_payment payments m).
Proof.
  intros H. unfold record_payment, ledger_ok.
  destruct (Dict.get payments _) as [paid|] eqn:E.
  - apply dict_set_Forall; [done|].
    apply add_ok; [|apply of_decimal_ok].
    exact (dict_get_Forall amount_ok _ _ _ H E).
  - apply dict_set_Forall; [done|apply of_decimal_ok].
Qed.

Lemma parse_line_ok payments raw :
  ledger_ok payments -> ledger_ok (parse_line payments raw).
Proof.
  intros H. unfold parse_line.
  destruct (strip raw); [done|].
  destruct (is_header _); [done|].
  destruct (search paid_pattern _); [by apply record_payment_ok|].
  destruct (search sent_pattern _); [by apply record_payment_ok|done].
Qed.

Lemma parse_payments_ok lines : ledger_ok (parse_payments lines).
Proof.
  unfold parse_payments.
  assert (H : ledger_ok []) by constructor.
  revert H. generalize (@nil (str * float)).
  induction lines as [|l lines IH]; intros payments H; simpl; [done|].
  by apply IH, parse_line_ok.
Qed.

Lemma scan_payments_ok entries key amount0 :
  ledger_ok entries -> amount_ok amount0 ->
  amount_ok (scan_payments entries key amount0).
Proof.
  intros H H0. induction H as [|[name a] entries Ha _ IH]; simpl; [done|].
  by destruct (name_matches key name).
Qed.

Lemma amount_ok_zero : amount_ok (Fin 0).
Proof. by split. Qed.

Lemma resolve_payment_ok payments key :
  ledger_ok payments -> amount_ok (resolve_payment payments key).
Proof.
  intros H. unfold resolve_payment.
  assert (H0 : amount_ok (default (Fin 0) (Dict.get payments key))).
  { destruct (Dict.get payments key) as [a|] eqn:E; simpl.
    - exact (dict_get_Forall amount_ok _ _ _ H E).
    - exact amount_ok_zero. }
  destruct (Float64.eqb _ _); [by apply scan_payments_ok|done].
Qed.

(** ** One group of the reconciliation *)

Lemma mark_plus_ones_seq accounted plus_ones i n :
  (i + n <= length plus_ones)%nat ->
  mark_plus_ones accounted plus_ones (seq i n)
  = Ok (list_to_set (normalize_name <$> take n (drop i plus_ones)) ∪ accounted).
Proof.
  revert accounted i. induction n as [|n IH]; intros accounted i Hlen; simpl.
  - f_equal. set_solver.
  - destruct (plus_ones !! i) as [p|] eqn:E.
    + rewrite IH by lia.
      rewrite (drop_S _ _ _ E). simpl. f_equal. set_solver.
    + apply lookup_ge_None in E. lia.
Qed.

Lemma mark_plus_ones_range accounted plus_ones n :
  n <= Z.of_nat (length plus_ones) ->
  mark_plus_ones accounted plus_ones (range n)
  = Ok (list_to_set (normalize_name <$> take (Z.to_nat n) plus_ones) ∪ accounted).
Proof.
  intros Hn. unfold range. rewrite mark_plus_ones_seq by (simpl; lia). done.
Qed.

Lemma add_unpaid_plus_ones_filter accounted plus_ones unpaid0 :
  add_unpaid_plus_ones accounted plus_ones unpaid0
  = unpaid0 ++ filter (fun p => normalize_name p ∉ accounted) plus_ones.
Proof.
  unfold add_unpaid_plus_ones. revert unpaid0.
  induction plus_ones as [|p ps IH]; intros unpaid0.
  - simpl. by rewrite app_nil_r.
  - cbn [fold_left]. rewrite IH, filter_cons.
    destruct (decide (normalize_name p ∉ accounted)) as [Hp|Hp].
    + rewrite (bool_decide_eq_true_2 _ Hp). by rewrite <- app_assoc.
    + by rewrite (bool_decide_eq_false_2 _ Hp).
Qed.


(** What [process_group] does once the number of covered guests is known. *)
Lemma process_group_covered g payments t key plus_ones covered :
  guests_covered_of (resolve_payment payments key) = Ok covered ->
  0 < covered ->
  let marked :=
    take (Z.to_nat (Z.min (covered - 1) (Z.of_nat (length plus_ones)))) plus_ones in
  let accounted :=
    list_to_set (normalize_name <$> marked) ∪ ({[key]} ∪ accounted_for t) in
  process_group g payments t (key, plus_ones)
  = Ok {| accounted_for := accounted;
          unpaid := unpaid t ++
                    filter (fun p => normalize_name p ∉ accounted) plus_ones |}.
Proof.
  intros Hcov Hpos marked accounted. unfold process_group.
  rewrite Hcov. simpl.
  rewrite (proj2 (Z.ltb_lt 0 covered) Hpos).
  rewrite mark_plus_ones_range by lia. simpl.
  fold marked. fold accounted.
  rewrite bool_decide_eq_false_2
    by (intros Hn; apply Hn, elem_of_union_r, elem_of_union_l, elem_of_singleton;
        reflexivity).
  by rewrite add_unpaid_plus_ones_filter.
Qed.

Lemma process_group_uncovered g payments t key plus_ones covered :
  guests_covered_of (resolve_payment payments key) = Ok covered ->
  covered <= 0 ->
  process_group g payments t (key, plus_ones)
  = Ok {| accounted_for := accounted_for t;
          unpaid :=
            (if bool_decide (key ∉ accounted_for t)
             then unpaid t ++ [main_guest_name_of g key] else unpaid t)
            ++ filter (fun p => normalize_name p ∉ accounted_for t) plus_ones |}.
Proof.
  intros Hcov Hle. unfold process_group.
  rewrite Hcov. simpl.
  rewrite (proj2 (Z.ltb_ge 0 covered) Hle). simpl.
  by rewrite add_unpaid_plus_ones_filter.
Qed.




(** ** The whole reconciliation *)

Lemma process_groups_app g payments t pre post :
  process_groups g payments t (pre ++ post)
  = (t' <- process_groups g payments t pre ;; process_groups g payments t' post).
Proof.
  revert t. induction pre as [|group pre IH]; intros t; simpl; [done|].
  destruct (process_group g payments t group) as [t1|e]; simpl; [apply IH|done].
Qed.

Lemma process_groups_cons g payments t group rest :
  process_groups g payments t (group :: rest)
  = (t' <- process_group g payments t group ;; process_groups g payments t' rest).
Proof. reflexivity. Qed.

Lemma process_group_unpaid_grows g payments t group t' :
  process_group g payments t group = Ok t' ->
  exists more, unpaid t' = unpaid t ++ more.
Proof.
  destruct group as [key plus_ones]. unfold process_group.
  destruct (guests_covered_of _) as [covered|e]; simpl; [|done].
  destruct (if 0 <? covered then _ else _) as [accounted|e]; simpl; [|done].
  intros [= <-]. simpl. rewrite add_unpaid_plus_ones_filter.
  destruct (bool_decide _); [|by eexists].
  rewrite <- app_assoc. by eexists.
Qed.

Lemma process_groups_unpaid_grows g payments groups t t' :
  process_groups g payments t groups = Ok t' ->
  exists more, unpaid t' = unpaid t ++ more.
Proof.
  revert t. induction groups as [|group groups IH]; intros t; simpl.
  - intros [= <-]. exists []. by rewrite app_nil_r.
  - destruct (process_group g payments t group) as [t1|e] eqn:E; simpl; [|done].
    intros H. apply IH in H as [more2 H2].
    apply process_group_unpaid_grows in E as [more1 H1].
    exists (more1 ++ more2). by rewrite H2, H1, app_assoc.
Qed.

(** An amount of the ledger that compares below the price covers no guest. *)
Lemma guests_covered_below_price amount :
  amount_ok amount -> ltb amount PRICE_PER_GUEST = true ->
  guests_covered_of amount = Ok 0.
Proof.
  rewrite PRICE_PER_GUEST_eq.
  destruct amount as [n| | |].
  - unfold amount_ok, ltb. intros [Hn Hf] Hlt%Z.ltb_lt.
    apply guests_covered_lt; [lia|done|done].
  - intros _ Hlt. discriminate Hlt.
  - intros [].
  - intros [].
Qed.

(** C2, as the code has it.  Take a group whose resolved amount is 0.0
    or any double below 5.0 and whose main guest was not marked
    accounted-for by an earlier group.  Then the iteration on the group
    appends the main guest to the tentative unpaid list; and when [main]
    prints its report, the main guest is in DefinitelyUnpaid provided
    that no name of the whole ledger (the entry that gave the resolved
    amount included) equals or fuzzily matches the main guest's
    normalized name and that name is not in the no-pay set. *)
Theorem C2_uncovered_main_guest_is_reported
    (whitelist_lines no_pay_lines : list str) (rows : list row)
    (payment_lines : list str) (r : report)
    (pre post : list (str * list str)) (key : str) (plus_ones : list str)
    (t_pre : tally) :
  let g := read_guests (read_names whitelist_lines) rows in
  let payments := parse_payments payment_lines in
  let main_guest_name := main_guest_name_of g key in
  main whitelist_lines no_pay_lines rows payment_lines = Ok r ->
  guest_structure g = pre ++ (key, plus_ones) :: post ->
  process_groups g payments no_tally pre = Ok t_pre ->
  ltb (resolve_payment payments key) PRICE_PER_GUEST = true ->
  key ∉ accounted_for t_pre ->
  (exists t', process_group g payments t_pre (key, plus_ones) = Ok t' /\
              accounted_for t' = accounted_for t_pre /\
              main_guest_name ∈ unpaid t') /\
  (has_payment payments (normalize_name main_guest_name) = false ->
   normalize_name main_guest_name ∉ read_names no_pay_lines ->
   main_guest_name ∈ DefinitelyUnpaid r).
Proof.
  intros g payments main_guest_name Hmain Hgroups Hpre Hlt Hacc.
  pose proof (guests_covered_below_price _
                (resolve_payment_ok payments key (parse_payments_ok payment_lines))
                Hlt) as Hcov.
  pose proof (process_group_uncovered g payments t_pre key plus_ones 0 Hcov
                ltac:(lia)) as Hstep.
  rewrite (bool_decide_eq_true_2 _ Hacc) in Hstep.
  assert (Hin : main_guest_name ∈
                 (unpaid t_pre ++ [main_guest_name]) ++
                 filter (fun p => normalize_name p ∉ accounted_for t_pre) plus_ones).
  { apply elem_of_app. left. apply elem_of_app. right. by left. }
  split.
  - eexists. split; [exact Hstep|]. by split.
  - intros Hnopay Hexempt.
    apply main_Ok_inv in Hmain as (t & Hall & ->). cbn [DefinitelyUnpaid].
    fold g payments in Hall |- *. rewrite Hgroups in Hall.
    rewrite process_groups_app, Hpre in Hall. cbn [bind] in Hall.
    rewrite process_groups_cons, Hstep in Hall. cbn [bind] in Hall.
    apply process_groups_unpaid_grows in Hall as [more Hmore].
    cbn [unpaid] in Hmore.
    rewrite double_check_filter.
    apply list_elem_of_In, filter_In. split.
    + apply list_elem_of_In. rewrite Hmore. apply elem_of_app. by left.
    + unfold stays_unpaid. fold main_guest_name. rewrite Hnopay.
      by apply bool_decide_eq_true_2.
Qed.

Lemma C2_uncovered_main_guest_witness :
  s2l "Bob Jones" ∈ [s2l "Bob Jones"].
Proof.
  pose (rows := [mk_row "Alice Smith" "Going" ""; mk_row "Bob Jones" "Going" ""]).
  pose (pay := [s2l "Alice Smith paid you $5.00"]).
  apply (proj2 (C2_uncovered_main_guest_is_reported [] [] rows pay
                  {| Blacklist := [s2l "Alice Smith"; s2l "Bob Jones"];
                     DefinitelyUnpaid := [s2l "Bob Jones"] |}
                  [(s2l "alice smith", [])] [] (s2l "bob jones") []
                  {| accounted_for := {[s2l "alice smith"]}; unpaid := [] |}
                  ltac:(vm_compute; reflexivity) ltac:(vm_compute; reflexivity)
                  ltac:(vm_compute; reflexivity) ltac:(vm_compute; reflexivity)
                  ltac:(vm_compute; set_solver))).
  - vm_compute. reflexivity.
  - vm_compute. set_solver.
Defined.

(** C2, as the specification states it, fails: Bob is the only guest
    and the only payer, he paid 3 dollars; the amount of his group is
    3.0, the ledger has no other entry, he is not exempt, and yet the
    second pass finds his own payment and he is not reported. *)
Lemma C2_counterexample_partial_payment :
  guest_structure (read_guests (read_names []) [mk_row "Bob" "Going" ""])
  = [(s2l "bob", [])] /\
  parse_payments [s2l "Bob paid you $3"] = [(s2l "bob", Fin (3 * unit))] /\
  resolve_payment (parse_payments [s2l "Bob paid you $3"]) (s2l "bob")
  = Fin (3 * unit) /\
  ltb (Fin (3 * unit)) PRICE_PER_GUEST = true /\
  s2l "bob" ∉ read_names [] /\
  main [] [] [mk_row "Bob" "Going" ""] [s2l "Bob paid you $3"]
  = Ok {| Blacklist := [s2l "Bob"]; DefinitelyUnpaid := [] |}.
Proof.
  repeat split; try (vm_compute; reflexivity).
  vm_compute. set_solver.
Qed.

(** * Further properties of the code *)

(** ** What [main] can raise *)

Lemma div_inf_pos_divisor b : 0 < b -> div PInf (Fin b) = Ok PInf.
Proof. intros Hb. destruct b; [lia|reflexivity|lia]. Qed.

Lemma guests_covered_of_inf : guests_covered_of PInf = Raise OverflowError.
Proof.
  unfold guests_covered_of. rewrite PRICE_PER_GUEST_eq.
  pose proof unit_pos. by rewrite div_inf_pos_divisor by lia.
Qed.

Lemma guests_covered_of_finite n :
  0 <= n < huge ->
  exists covered, guests_covered_of (Fin n) = Ok covered /\ 0 <= covered.
Proof.
  intros Hn. pose proof unit_pos as Hu.
  rewrite guests_covered_of_Fin by lia.
  assert (Hfm : format (1 * 2 ^ (emin + 1022)))
    by (apply format_mul_pow2; done).
  assert (Hq : huge = 4 * (1 * 2 ^ (emin + 1022))) by reflexivity.
  destruct (round_pos_le (n * unit) (5 * unit) (1 * 2 ^ (emin + 1022))
              ltac:(nia) ltac:(lia) Hfm ltac:(nia) ltac:(lia))
    as (r & Hr & Hr0 & _).
  rewrite Hr. cbn [to_int]. eexists. split; [done|].
  apply Z.quot_pos; lia.
Qed.

Lemma guests_covered_of_amount amount :
  amount_ok amount ->
  (amount = PInf /\ guests_covered_of amount = Raise OverflowError) \/
  (exists covered, guests_covered_of amount = Ok covered /\ 0 <= covered).
Proof.
  destruct amount as [n| | |].
  - intros [Hn _]. right. by apply guests_covered_of_finite.
  - intros _. left. split; [done|apply guests_covered_of_inf].
  - intros [].
  - intros [].
Qed.

Lemma process_group_outcome g payments t key plus_ones :
  ledger_ok payments ->
  (resolve_payment payments key = PInf /\
   process_group g payments t (key, plus_ones) = Raise OverflowError) \/
  (exists t', process_group g payments t (key, plus_ones) = Ok t').
Proof.
  intros Hok.
  destruct (guests_covered_of_amount _ (resolve_payment_ok payments key Hok))
    as [[Hinf Hraise]|(covered & Hcov & Hpos)].
  - left. split; [done|]. unfold process_group. by rewrite Hraise.
  - right. destruct (Z_lt_le_dec 0 covered) as [Hlt|Hle].
    + eexists. by apply process_group_covered.
    + eexists. by apply (process_group_uncovered g payments t key plus_ones covered).
Qed.

Lemma process_groups_outcome g payments groups t :
  ledger_ok payments ->
  (exists key, key ∈ groups.*1 /\ resolve_payment payments key = PInf /\
               process_groups g payments t groups = Raise OverflowError) \/
  (exists t', process_groups g payments t groups = Ok t').
Proof.
  intros Hok. revert t.
  induction groups as [|[key plus_ones] groups IH]; intros t.
  - right. by exists t.
  - rewrite process_groups_cons.
    destruct (process_group_outcome g payments t key plus_ones Hok)
      as [[Hinf Hraise]|[t1 Hstep]].
    + left. exists key. rewrite Hraise. split; [by left|done].
    + rewrite Hstep. cbn [bind].
      destruct (IH t1) as [(k & Hk & Hinf & Hraise)|[t' Hall]].
      * left. exists k. split; [by right|done].
      * right. by exists t'.
Qed.

Lemma scan_payments_from_ledger entries key amount0 :
  scan_payments entries key amount0 = amount0 \/
  exists name, (name, scan_payments entries key amount0) ∈ entries.
Proof.
  induction entries as [|[name a] entries IH]; simpl; [by left|].
  destruct (name_matches key name).
  - right. exists name. by left.
  - destruct IH as [IH|[n IH]]; [by left|]. right. exists n. by right.
Qed.

Lemma dict_get_elem_of {V} (d : list (str * V)) key v :
  Dict.get d key = Some v -> (key, v) ∈ d.
Proof.
  induction d as [|[k w] d IH]; simpl; [done|].
  destruct (decide (k = key)) as [->|Hne].
  - rewrite bool_decide_eq_true_2 by done. intros [= ->]. by left.
  - rewrite bool_decide_eq_false_2 by done. intros H. right. by apply IH.
Qed.

Lemma resolve_payment_inf payments key :
  resolve_payment payments key = PInf ->
  exists name, (name, PInf) ∈ payments.
Proof.
  unfold resolve_payment.
  destruct (Dict.get payments key) as [a|] eqn:E; simpl.
  - destruct (Float64.eqb a (Fin 0)) eqn:Ez.
    + destruct (scan_payments_from_ledger payments key a) as [->|[n Hn]].
      * intros ->. done.
      * intros Hinf. rewrite Hinf in Hn. by exists n.
    + intros ->. exists key. by apply dict_get_elem_of.
  - destruct (scan_payments_from_ledger payments key (Fin 0)) as [->|[n Hn]].
    + done.
    + intros Hinf. rewrite Hinf in Hn. by exists n.
Qed.

Lemma main_Raise_inv wl np rows pay e :
  main wl np rows pay = Raise e ->
  e = OverflowError /\
  (exists key,
      key ∈ (guest_structure (read_guests (read_names wl) rows)).*1 /\
      resolve_payment (parse_payments pay) key = PInf) /\
  (exists name, (name, PInf) ∈ parse_payments pay).
Proof.
  unfold main. intros Hmain.
  destruct (process_groups_outcome
              (read_guests (read_names wl) rows) (parse_payments pay)
              (guest_structure (read_guests (read_names wl) rows))
              no_tally (parse_payments_ok pay))
    as [(key & Hkey & Hinf & Hraise)|[t' Hall]].
  - rewrite Hraise in Hmain. cbn [bind] in Hmain. injection Hmain as <-.
    split; [done|]. split; [by exists key|].
    by apply (resolve_payment_inf _ key).
  - rewrite Hall in Hmain. done.
Qed.

(** The only exception that [main] can raise on well-formed rows is the
    [OverflowError] of [int] on an infinite amount: the group key under
    which it happens resolves to positive infinity, an amount that
    stands in the ledger.  Neither the indexing of [plus_ones] nor the
    division nor a NaN can raise. *)
Theorem main_raises_only_on_infinite_amount
    (whitelist_lines no_pay_lines : list str) (rows : list row)
    (payment_lines : list str) (e : exn) :
  main whitelist_lines no_pay_lines rows payment_lines = Raise e ->
  e = OverflowError /\
  (exists key,
      key ∈ (guest_structure (read_guests (read_names whitelist_lines) rows)).*1 /\
      resolve_payment (parse_payments payment_lines) key = PInf) /\
  (exists name, (name, PInf) ∈ parse_payments payment_lines).
Proof. apply main_Raise_inv. Qed.

Lemma main_raises_witness :
  OverflowError = OverflowError /\
  (exists key,
      key ∈ (guest_structure (read_guests (read_names [])
                                [mk_row "Bob" "Going" ""])).*1 /\
      resolve_payment
        (parse_payments [s2l "Bob paid you $1" ++ repeat "0"%char 400]) key = PInf) /\
  (exists name,
      (name, PInf) ∈ parse_payments [s2l "Bob paid you $1" ++ repeat "0"%char 400]).
Proof.
  apply (main_raises_only_on_infinite_amount [] [] [mk_row "Bob" "Going" ""]
           [s2l "Bob paid you $1" ++ repeat "0"%char 400] OverflowError).
  vm_compute. reflexivity.
Defined.

(** When every amount of the ledger is finite, [main] prints a report. *)
Theorem main_returns_on_finite_ledger
    (whitelist_lines no_pay_lines : list str) (rows : list row)
    (payment_lines : list str) :
  Forall (fun entry => entry.2 <> PInf) (parse_payments payment_lines) ->
  exists r, main whitelist_lines no_pay_lines rows payment_lines = Ok r.
Proof.
  intros Hfin.
  destruct (main whitelist_lines no_pay_lines rows payment_lines) as [r|e] eqn:E;
    [by exists r|].
  apply main_Raise_inv in E as (_ & _ & name & Hin).
  rewrite Forall_forall in Hfin. by destruct (Hfin _ Hin).
Qed.

Lemma main_returns_witness :
  exists r, main [] [] [mk_row "Bob" "Going" ""] [s2l "Bob paid you $5"] = Ok r.
Proof.
  apply (main_returns_on_finite_ledger [] [] [mk_row "Bob" "Going" ""]
           [s2l "Bob paid you $5"]).
  vm_compute. repeat constructor. discriminate.
Defined.

(** ** What the second pass lets through *)

Lemma any_payment_matches_false entries key :
  any_payment_matches entries key = false ->
  forall name amount, (name, amount) ∈ entries -> name_matches key name = false.
Proof.
  induction entries as [|[n a] entries IH]; simpl.
  - intros _ name amount Hin. by apply elem_of_nil in Hin.
  - destruct (name_matches key n) eqn:E; [done|].
    intros H name amount Hin. apply elem_of_cons in Hin as [[= -> ->]|Hin]; [done|].
    by apply (IH H name amount).
Qed.

(** Nobody with a payment on record is reported: for every name of
    DefinitelyUnpaid, the ledger has no entry under the normalized name
    and no entry whose name passes the fuzzy test against it. *)
Theorem reported_guest_has_no_payment_on_record
    (whitelist_lines no_pay_lines : list str) (rows : list row)
    (payment_lines : list str) (r : report) (guest : str) :
  main whitelist_lines no_pay_lines rows payment_lines = Ok r ->
  guest ∈ DefinitelyUnpaid r ->
  Dict.get (parse_payments payment_lines) (normalize_name guest) = None /\
  forall name amount,
    (name, amount) ∈ parse_payments payment_lines ->
    name_matches (normalize_name guest) name = false.
Proof.
  intros Hmain Hin.
  apply main_Ok_inv in Hmain as (t & _ & ->). cbn [DefinitelyUnpaid] in Hin.
  rewrite double_check_filter in Hin.
  apply list_elem_of_In, filter_In in Hin as [_ Hstay].
  unfold stays_unpaid in Hstay.
  apply andb_true_iff in Hstay as [Hpay _].
  apply negb_true_iff in Hpay. unfold has_payment, Dict.contains in Hpay.
  destruct (Dict.get (parse_payments payment_lines) (normalize_name guest));
    [done|].
  split; [done|]. by apply any_payment_matches_false.
Qed.

Lemma reported_guest_witness :
  Dict.get (parse_payments [s2l "Alice Smith paid you $5.00"])
    (normalize_name (s2l "Bob Jones")) = None /\
  forall name amount,
    (name, amount) ∈ parse_payments [s2l "Alice Smith paid you $5.00"] ->
    name_matches (normalize_name (s2l "Bob Jones")) name = false.
Proof.
  apply (reported_guest_has_no_payment_on_record [] []
           [mk_row "Alice Smith" "Going" ""; mk_row "Bob Jones" "Going" "Alice Smith"]
           [s2l "Alice Smith paid you $5.00"]
           {| Blacklist := [s2l "Alice Smith"; s2l "Bob Jones"];
              DefinitelyUnpaid := [s2l "Bob Jones"] |}).
  - vm_compute. reflexivity.
  - cbn [DefinitelyUnpaid]. by left.
Defined.

(** ** Rows that are not Going *)

Lemma read_row_not_going whitelist g r :
  is_going r = false -> read_row whitelist g r = g.
Proof.
  unfold is_going, read_row. intros H%bool_decide_eq_false.
  by rewrite bool_decide_eq_true_2.
Qed.

Lemma read_guests_going_from whitelist rows g :
  fold_left (read_row whitelist) rows g
  = fold_left (read_row whitelist) (List.filter is_going rows) g.
Proof.
  revert g. induction rows as [|r rows IH]; intros g; simpl; [done|].
  destruct (is_going r) eqn:E; simpl.
  - apply IH.
  - rewrite read_row_not_going by done. apply IH.
Qed.

(** A row whose status, stripped, is not exactly Going has no effect at
    all: [main] gives the same outcome on the table without such rows. *)
Theorem main_ignores_rows_not_going
    (whitelist_lines no_pay_lines : list str) (rows : list row)
    (payment_lines : list str) :
  main whitelist_lines no_pay_lines rows payment_lines
  = main whitelist_lines no_pay_lines (List.filter is_going rows) payment_lines.
Proof.
  unfold main, read_guests. by rewrite <- read_guests_going_from.
Qed.

(** ** A run without payments *)

Lemma guests_covered_of_zero : guests_covered_of (Fin 0) = Ok 0.
Proof.
  apply guests_covered_lt; [lia|done|]. pose proof unit_pos. lia.
Qed.

Lemma filter_all {A} (P : A -> Prop) `{!forall x, Decision (P x)} (l : list A) :
  (forall x, x ∈ l -> P x) -> filter P l = l.
Proof.
  induction l as [|x l IH]; intros Hl; [done|].
  rewrite filter_cons_True by (apply Hl; left).
  f_equal. apply IH. intros y Hy. apply Hl. by right.
Qed.

Lemma process_groups_no_payments g groups t :
  accounted_for t = ∅ ->
  process_groups g [] t groups
  = Ok {| accounted_for := ∅;
          unpaid := unpaid t ++ flat_map (group_members g) groups |}.
Proof.
  revert t. induction groups as [|[key plus_ones] groups IH]; intros t Ht.
  - simpl. rewrite app_nil_r. destruct t. simpl in Ht. by rewrite Ht.
  - rewrite process_groups_cons.
    rewrite (process_group_uncovered g [] t key plus_ones 0
               guests_covered_of_zero ltac:(lia)).
    cbn [bind]. rewrite IH by done. cbn [unpaid flat_map group_members fst snd].
    rewrite Ht. rewrite bool_decide_eq_true_2 by set_solver.
    rewrite filter_all by set_solver.
    by rewrite <- !app_assoc.
Qed.

Lemma stays_unpaid_no_payments no_pay (l : list str) :
  List.filter (stays_unpaid [] no_pay) l
  = filter (fun name => normalize_name name ∉ no_pay) l.
Proof.
  induction l as [|x l IH]; [done|].
  rewrite filter_cons. cbn [List.filter]. unfold stays_unpaid at 1.
  cbn [has_payment Dict.contains Dict.get any_payment_matches negb andb].
  rewrite IH.
  destruct (decide (normalize_name x ∉ no_pay)) as [H|H].
  - by rewrite bool_decide_eq_true_2.
  - by rewrite bool_decide_eq_false_2.
Qed.

(** With a ledger that is empty (no line of the payments file matched),
    nobody is covered: [main] reports, in the order of the groups, every
    main guest followed by the dependents of the group, except the
    names of the no-pay set. *)
Theorem main_without_payments_reports_everyone
    (whitelist_lines no_pay_lines : list str) (rows : list row)
    (payment_lines : list str) :
  parse_payments payment_lines = [] ->
  let g := read_guests (read_names whitelist_lines) rows in
  main whitelist_lines no_pay_lines rows payment_lines
  = Ok {| Blacklist := blacklist g;
          DefinitelyUnpaid :=
            filter (fun name => normalize_name name ∉ read_names no_pay_lines)
                   (flat_map (group_members g) (guest_structure g)) |}.
Proof.
  intros Hempty g. unfold main. rewrite Hempty. fold g.
  rewrite process_groups_no_payments by done.
  unfold no_tally. cbn [bind unpaid app].
  f_equal. f_equal. rewrite double_check_filter.
  apply stays_unpaid_no_payments.
Qed.

Lemma main_without_payments_witness :
  main [] [s2l "Carl"] [mk_row "Ann" "Going" ""; mk_row "Carl" "Going" "Ann"]
    [s2l "Venmo:"; s2l ""]
  = Ok {| Blacklist :=
            blacklist (read_guests (read_names [])
                         [mk_row "Ann" "Going" ""; mk_row "Carl" "Going" "Ann"]);
          DefinitelyUnpaid :=
            filter (fun name => normalize_name name ∉ read_names [s2l "Carl"])
              (flat_map
                 (group_members
                    (read_guests (read_names [])
                       [mk_row "Ann" "Going" ""; mk_row "Carl" "Going" "Ann"]))
                 (guest_structure
                    (read_guests (read_names [])
                       [mk_row "Ann" "Going" ""; mk_row "Carl" "Going" "Ann"]))) |}.
Proof.
  apply (main_without_payments_reports_everyone [] [s2l "Carl"]
           [mk_row "Ann" "Going" ""; mk_row "Carl" "Going" "Ann"]
           [s2l "Venmo:"; s2l ""]).
  vm_compute. reflexivity.
Defined.

(** ** [normalize_name] *)

Lemma is_space_lower_char c : is_space (lower_char c) = is_space c.
Proof. by destruct c as [[] [] [] [] [] [] [] []]. Qed.


Lemma lower_char_idemp c : lower_char (lower_char c) = lower_char c.
Proof. by destruct c as [[] [] [] [] [] [] [] []]. Qed.


Lemma lower_idemp s : lower (lower s) = lower s.
Proof.
  unfold lower. rewrite map_map. apply map_ext. intros c. apply lower_char_idemp.
Qed.

Lemma lstrip_lower s : lstrip (lower s) = lower (lstrip s).
Proof.
  induction s as [|c s IH]; simpl; [done|].
  rewrite is_space_lower_char. by destruct (is_space c).
Qed.

Lemma rstrip_lower s : rstrip (lower s) = lower (rstrip s).
Proof.
  induction s as [|c s IH]; simpl; [done|].
  fold (lower s). rewrite IH. rewrite is_space_lower_char.
  destruct (rstrip s); simpl; [by destruct (is_space c)|done].
Qed.

Lemma strip_lower s : strip (lower s) = lower (strip s).
Proof. unfold strip. by rewrite lstrip_lower, rstrip_lower. Qed.

Lemma lstrip_head s :
  lstrip s = [] \/ exists c r, lstrip s = c :: r /\ is_space c = false.
Proof.
  induction s as [|c s IH]; simpl; [by left|].
  destruct (is_space c) eqn:E; [done|]. right. by exists c, s.
Qed.

Lemma lstrip_not_space c s : is_space c = false -> lstrip (c :: s) = c :: s.
Proof. intros H. simpl. by rewrite H. Qed.

Lemma lstrip_idemp s : lstrip (lstrip s) = lstrip s.
Proof.
  destruct (lstrip_head s) as [->|(c & r & -> & Hc)]; [done|].
  by apply lstrip_not_space.
Qed.

Lemma rstrip_cons c s :
  rstrip (c :: s)
  = match rstrip s with
    | [] => if is_space c then [] else [c]
    | r => c :: r
    end.
Proof. reflexivity. Qed.

Lemma rstrip_idemp s : rstrip (rstrip s) = rstrip s.
Proof.
  induction s as [|c s IH]; [done|].
  rewrite rstrip_cons. destruct (rstrip s) as [|d r] eqn:E.
  - destruct (is_space c) eqn:Ec; [done|]. rewrite rstrip_cons. simpl. by rewrite Ec.
  - rewrite rstrip_cons, IH. done.
Qed.

Lemma rstrip_head_not_space c s :
  is_space c = false -> exists r, rstrip (c :: s) = c :: r.
Proof.
  intros Hc. simpl. destruct (rstrip s); [rewrite Hc|]; by eexists.
Qed.

Lemma lstrip_rstrip s : lstrip (rstrip s) = rstrip (lstrip s).
Proof.
  induction s as [|c s IH]; [done|].
  destruct (is_space c) eqn:Ec.
  - cbn [lstrip rstrip]. rewrite Ec, <- IH.
    destruct (rstrip s) as [|d r]; [done|].
    cbn [lstrip]. by rewrite Ec.
  - rewrite (lstrip_not_space c s Ec).
    destruct (rstrip_head_not_space c s Ec) as [r ->].
    by apply lstrip_not_space.
Qed.

Lemma strip_idemp s : strip (strip s) = strip s.
Proof.
  unfold strip. by rewrite lstrip_rstrip, lstrip_idemp, rstrip_idemp.
Qed.

Lemma normalize_name_strip s : normalize_name (strip s) = normalize_name s.
Proof. unfold normalize_name. by rewrite strip_idemp. Qed.

Lemma normalize_name_fixed name :
  normalize_name (normalize_name name) = normalize_name name.
Proof.
  unfold normalize_name. by rewrite strip_lower, strip_idemp, lower_idemp.
Qed.

(** Normalizing twice is normalizing once, so a normalized name is a
    fixed point and can be used as a key wherever a name is expected. *)
Theorem normalize_name_idempotent (name : str) :
  normalize_name (normalize_name name) = normalize_name name.
Proof. apply normalize_name_fixed. Qed.

Lemma lstrip_blank_app lead s :
  Forall (fun c => is_space c = true) lead -> lstrip (lead ++ s) = lstrip s.
Proof. induction 1 as [|c lead Hc _ IH]; simpl; [done|]. by rewrite Hc. Qed.

Lemma rstrip_blank trail :
  Forall (fun c => is_space c = true) trail -> rstrip trail = [].
Proof. induction 1 as [|c trail Hc _ IH]; simpl; [done|]. by rewrite IH, Hc. Qed.

Lemma rstrip_app_blank s trail :
  Forall (fun c => is_space c = true) trail -> rstrip (s ++ trail) = rstrip s.
Proof.
  intros Ht. induction s as [|c s IH]; simpl.
  - by apply rstrip_blank.
  - by rewrite IH.
Qed.

Lemma strip_blank_around lead s trail :
  Forall (fun c => is_space c = true) lead ->
  Forall (fun c => is_space c = true) trail ->
  strip (lead ++ s ++ trail) = strip s.
Proof.
  intros Hl Ht. unfold strip.
  rewrite <- !lstrip_rstrip, app_assoc, rstrip_app_blank by done.
  by rewrite !lstrip_rstrip, lstrip_blank_app.
Qed.

(** Two spellings of a name that differ only in the case of letters and
    in whitespace around the name have the same normalized form. *)
Theorem normalize_name_ignores_case_and_margins (lead name trail other : str) :
  Forall (fun c => is_space c = true) lead ->
  Forall (fun c => is_space c = true) trail ->
  lower name = lower other ->
  normalize_name (lead ++ name ++ trail) = normalize_name other.
Proof.
  intros Hl Ht Hcase. unfold normalize_name.
  by rewrite strip_blank_around, <- !strip_lower, Hcase.
Qed.

Lemma normalize_name_ignores_witness :
  normalize_name (s2l "  " ++ s2l "Alice SMITH" ++ s2l " ") = normalize_name (s2l "alice Smith").
Proof.
  apply normalize_name_ignores_case_and_margins.
  - vm_compute. by repeat constructor.
  - vm_compute. by repeat constructor.
  - reflexivity.
Defined.

(** ** The name sets *)

Lemma lower_nil_iff s : lower s = [] <-> s = [].
Proof. by destruct s. Qed.

(** The set read from a file of names holds exactly the normalized
    forms of its lines that are not blank: a blank line adds nothing,
    and in particular the empty name is never a member. *)
Theorem read_names_members (lines : list str) (x : str) :
  x ∈ read_names lines <->
  x <> [] /\ exists line, line ∈ lines /\ normalize_name line = x.
Proof.
  unfold read_names. rewrite elem_of_list_to_set, list_elem_of_fmap.
  split.
  - intros (line & -> & Hin). apply list_elem_of_filter in Hin as [Hne Hin].
    rewrite normalize_name_strip. split; [|by exists line].
    unfold normalize_name. by rewrite lower_nil_iff.
  - intros [Hne (line & Hin & <-)]. exists line.
    rewrite normalize_name_strip. split; [done|].
    apply list_elem_of_filter. split; [|done].
    unfold normalize_name in Hne. by rewrite lower_nil_iff in Hne.
Qed.

(** ** Insertion-ordered dictionaries: lookup after assignment *)

Section DictSet.
Context {V : Type}.
Implicit Types (d : list (str * V)) (k : str) (v : V).

Lemma dict_get_set d k v k' :
  Dict.get (Dict.set d k v) k' = if decide (k = k') then Some v else Dict.get d k'.
Proof.
  induction d as [|[j w] d IH]; simpl.
  - destruct (decide (k = k')) as [->|Hne].
    + by rewrite bool_decide_eq_true_2.
    + by rewrite bool_decide_eq_false_2.
  - destruct (decide (j = k)) as [->|Hjk].
    + rewrite (bool_decide_eq_true_2 (k = k)) by done. simpl.
      destruct (decide (k = k')) as [->|Hne].
      * by rewrite bool_decide_eq_true_2.
      * by rewrite bool_decide_eq_false_2.
    + rewrite (bool_decide_eq_false_2 (j = k)) by done. simpl.
      rewrite IH. destruct (decide (j = k')) as [->|Hjk'].
      * rewrite bool_decide_eq_true_2 by done.
        by rewrite decide_False by congruence.
      * by rewrite bool_decide_eq_false_2.
Qed.

Lemma dict_contains_keys d k : Dict.contains d k = true <-> k ∈ d.*1.
Proof.
  unfold Dict.contains. induction d as [|[j w] d IH]; simpl.
  - split; [done|]. intros H. by apply elem_of_nil in H.
  - destruct (decide (j = k)) as [->|Hne].
    + rewrite bool_decide_eq_true_2 by done. split; [|done]. intros _. by left.
    + rewrite bool_decide_eq_false_2 by done. rewrite IH.
      rewrite elem_of_cons. naive_solver.
Qed.

Lemma dict_set_keys d k v :
  (Dict.set d k v).*1 = if decide (k ∈ d.*1) then d.*1 else d.*1 ++ [k].
Proof.
  induction d as [|[j w] d IH].
  - destruct (decide (k ∈ ([] : list (str * V)).*1)) as [H|H]; [|done].
    by apply elem_of_nil in H.
  - cbn [Dict.set]. rewrite fmap_cons. cbn [fst].
    destruct (decide (j = k)) as [->|Hne].
    + rewrite bool_decide_eq_true_2 by done. rewrite fmap_cons. cbn [fst].
      destruct (decide (k ∈ k :: d.*1)) as [H|H]; [done|].
      destruct H. by left.
    + rewrite bool_decide_eq_false_2 by done. rewrite fmap_cons, IH. cbn [fst].
      destruct (decide (k ∈ d.*1)) as [Hin|Hnin];
        destruct (decide (k ∈ j :: d.*1)) as [H|H]; try done.
      * destruct H. by right.
      * apply elem_of_cons in H as [->|H]; done.
Qed.

Lemma dict_get_None_keys d k : Dict.get d k = None <-> k ∉ d.*1.
Proof.
  rewrite <- dict_contains_keys. unfold Dict.contains.
  destruct (Dict.get d k); naive_solver.
Qed.

End DictSet.

(** ** The groups that the first loop builds *)

Lemma read_row_guest_structure wl g r :
  guest_structure (read_row wl g r)
  = if is_going r
    then match strip (IsPlusOneOf r) with
         | [] =>
             if Dict.contains (guest_structure g) (group_key r)
             then guest_structure g
             else Dict.set (guest_structure g) (group_key r) []
         | _ :: _ =>
             Dict.set (guest_structure g) (group_key r)
               (default [] (Dict.get (guest_structure g) (group_key r))
                ++ [strip (Name r)])
         end
    else guest_structure g.
Proof.
  unfold read_row, is_going, group_key.
  destruct (decide (strip (Status r) = s2l "Going")) as [Hs|Hs].
  - rewrite (bool_decide_eq_true_2 _ Hs).
    rewrite (bool_decide_eq_false_2 (strip (Status r) <> s2l "Going")) by tauto.
    by destruct (strip (IsPlusOneOf r)).
  - rewrite (bool_decide_eq_false_2 _ Hs).
    by rewrite (bool_decide_eq_true_2 (strip (Status r) <> s2l "Going")).
Qed.

Lemma is_plus_one_of_group_key key r :
  is_plus_one_of key r = true ->
  is_going r = true /\ group_key r = key /\ strip (IsPlusOneOf r) <> [].
Proof.
  unfold is_plus_one_of, group_key. intros [Hg H]%andb_true_iff.
  destruct (strip (IsPlusOneOf r)); [done|].
  by apply bool_decide_eq_true in H.
Qed.

Lemma read_row_get wl g r key :
  Dict.get (guest_structure (read_row wl g r)) key
  = if is_going r && bool_decide (group_key r = key)
    then Some (default [] (Dict.get (guest_structure g) key)
               ++ (if is_plus_one_of key r then [strip (Name r)] else []))
    else Dict.get (guest_structure g) key.
Proof.
  rewrite read_row_guest_structure. unfold is_plus_one_of.
  destruct (is_going r) eqn:Hg; [|done]. cbn [andb].
  destruct (decide (group_key r = key)) as [Hk|Hk].
  - rewrite (bool_decide_eq_true_2 _ Hk).
    unfold group_key in Hk |- *.
    destruct (strip (IsPlusOneOf r)) as [|c p] eqn:Hp.
    + rewrite Hk, app_nil_r. unfold Dict.contains.
      destruct (Dict.get (guest_structure g) key) as [l|] eqn:E; [done|].
      rewrite dict_get_set. by rewrite decide_True.
    + rewrite (bool_decide_eq_true_2 _ Hk), Hk, dict_get_set.
      by rewrite decide_True.
  - rewrite (bool_decide_eq_false_2 _ Hk).
    destruct (strip (IsPlusOneOf r)) as [|c p] eqn:Hp.
    + destruct (Dict.contains _ _); [done|].
      rewrite dict_get_set. by rewrite decide_False.
    + rewrite dict_get_set. by rewrite decide_False.
Qed.

Lemma read_guests_get_from wl rows g key :
  Dict.get (guest_structure (fold_left (read_row wl) rows g)) key
  = match Dict.get (guest_structure g) key with
    | Some l =>
        Some (l ++ ((fun r => strip (Name r)) <$> List.filter (is_plus_one_of key) rows))
    | None =>
        if bool_decide (key ∈ group_key <$> List.filter is_going rows)
        then Some ((fun r => strip (Name r)) <$> List.filter (is_plus_one_of key) rows)
        else None
    end.
Proof.
  revert g. induction rows as [|r rows IH]; intros g.
  - cbn [fold_left List.filter fmap list_fmap].
    rewrite bool_decide_eq_false_2 by (intros H; by apply elem_of_nil in H).
    destruct (Dict.get (guest_structure g) key); [by rewrite app_nil_r|done].
  - cbn [fold_left List.filter]. rewrite IH, read_row_get.
    destruct (is_going r) eqn:Hg; cbn [andb].
    + destruct (decide (group_key r = key)) as [Hk|Hk].
      * rewrite (bool_decide_eq_true_2 _ Hk).
        assert (Hin : key ∈ group_key <$> r :: List.filter is_going rows)
          by (rewrite fmap_cons, Hk; by left).
        rewrite (bool_decide_eq_true_2 _ Hin).
        destruct (is_plus_one_of key r);
          destruct (Dict.get (guest_structure g) key);
          cbn [default fmap list_fmap app]; by rewrite <- ?app_assoc, ?app_nil_r.
      * rewrite (bool_decide_eq_false_2 _ Hk).
        assert (Hp : is_plus_one_of key r = false).
        { destruct (is_plus_one_of key r) eqn:E; [|done].
          by apply is_plus_one_of_group_key in E as (_ & ? & _). }
        rewrite Hp.
        rewrite (bool_decide_ext (key ∈ group_key <$> r :: List.filter is_going rows)
                   (key ∈ group_key <$> List.filter is_going rows)); [done|].
        rewrite fmap_cons, elem_of_cons. naive_solver.
    + assert (Hp : is_plus_one_of key r = false).
      { unfold is_plus_one_of. by rewrite Hg. }
      by rewrite Hp.
Qed.

(** The dependents of a group are the display names of the Going rows
    that name the group's key as their main guest, in row order; a key
    has a group exactly when some Going row belongs to it, be it the
    main guest's own row (the group may then be empty) or a plus-one's
    row (the main guest may then have no Going row at all). *)
Theorem guest_structure_groups (whitelist : gset str) (rows : list row) (key : str) :
  Dict.get (guest_structure (read_guests whitelist rows)) key
  = if bool_decide (key ∈ group_key <$> List.filter is_going rows)
    then Some ((fun r => strip (Name r)) <$> List.filter (is_plus_one_of key) rows)
    else None.
Proof. unfold read_guests. by rewrite read_guests_get_from. Qed.

Lemma read_row_keys wl g r :
  (guest_structure (read_row wl g r)).*1
  = if is_going r
    then if decide (group_key r ∈ (guest_structure g).*1)
         then (guest_structure g).*1
         else (guest_structure g).*1 ++ [group_key r]
    else (guest_structure g).*1.
Proof.
  rewrite read_row_guest_structure.
  destruct (is_going r); [|done].
  destruct (strip (IsPlusOneOf r)).
  - destruct (Dict.contains (guest_structure g) (group_key r)) eqn:E.
    + apply dict_contains_keys in E. by rewrite decide_True.
    + rewrite dict_set_keys.
      destruct (decide (group_key r ∈ (guest_structure g).*1)) as [H|H]; [|done].
      apply dict_contains_keys in H. congruence.
  - apply dict_set_keys.
Qed.


Lemma filter_filter_absorb (ks : list str) x (l : list str) :
  x ∈ ks ->
  filter (fun y => y ∉ ks) (filter (fun y => y <> x) l) = filter (fun y => y ∉ ks) l.
Proof.
  intros Hx. rewrite list_filter_filter. apply list_filter_iff.
  intros y. split; [tauto|]. intros Hy. split; [done|]. congruence.
Qed.

Lemma filter_filter_snoc (ks : list str) x (l : list str) :
  filter (fun y => y ∉ ks ++ [x]) l
  = filter (fun y => y ∉ ks) (filter (fun y => y <> x) l).
Proof.
  rewrite list_filter_filter. apply list_filter_iff.
  intros y. rewrite elem_of_app, list_elem_of_singleton. tauto.
Qed.

Lemma read_guests_keys_from wl rows g :
  (guest_structure (fold_left (read_row wl) rows g)).*1
  = (guest_structure g).*1
    ++ filter (fun k => k ∉ (guest_structure g).*1)
         (first_occurrences (group_key <$> List.filter is_going rows)).
Proof.
  revert g. induction rows as [|r rows IH]; intros g.
  - cbn. by rewrite app_nil_r.
  - cbn [fold_left List.filter]. rewrite IH, read_row_keys.
    destruct (is_going r); [|done].
    rewrite fmap_cons. cbn [first_occurrences]. rewrite filter_cons.
    destruct (decide (group_key r ∈ (guest_structure g).*1)) as [Hin|Hnin].
    + rewrite decide_False by tauto. by rewrite filter_filter_absorb.
    + rewrite decide_True by done.
      by rewrite <- app_assoc, filter_filter_snoc.
Qed.

(** The groups are iterated in the order in which their keys are first
    met among the Going rows, each key once. *)
Theorem guest_structure_keys_in_first_occurrence_order
    (whitelist : gset str) (rows : list row) :
  (guest_structure (read_guests whitelist rows)).*1
  = first_occurrences (group_key <$> List.filter is_going rows).
Proof.
  unfold read_guests. rewrite read_guests_keys_from. cbn [no_guests guest_structure].
  cbn [fmap list_fmap app]. apply filter_all. intros x _ H.
  by apply elem_of_nil in H.
Qed.

(** ** The display name of a group *)

Lemma lstrip_length s : (length (lstrip s) <= length s)%nat.
Proof.
  induction s as [|c s IH]; simpl; [done|].
  destruct (is_space c); simpl; lia.
Qed.


Lemma lstrip_fixed_head c s : lstrip (c :: s) = c :: s -> is_space c = false.
Proof.
  simpl. destruct (is_space c); [|done].
  intros H. pose proof (lstrip_length s) as Hl. rewrite H in Hl. simpl in Hl. lia.
Qed.



















(** ** Whole-dollar amounts are exact *)

Lemma round_pos_exact M q :
  0 <= M < huge -> format M -> 0 < q -> round_pos (M * q) q = Fin M.
Proof.
  intros HM Hf Hq.
  pose proof (round_pos_ge (M * q) q M Hq ltac:(lia) Hf ltac:(lia)) as Hge.
  destruct (round_pos_le (M * q) q M ltac:(nia) Hq Hf ltac:(lia) ltac:(lia))
    as (r & Hr & _ & Hle).
  rewrite Hr in Hge |- *. f_equal. lia.
Qed.

Lemma format_zero : format 0.
Proof. done. Qed.

Lemma format_whole a : 0 <= a < 2 ^ prec -> format (a * unit).
Proof.
  intros Ha. destruct (Z.eq_dec a 0) as [->|Hne]; [done|].
  apply format_mul_pow2; [lia|done].
Qed.

Lemma whole_lt_huge a : 0 <= a < 2 ^ prec -> 0 <= a * unit < huge.
Proof.
  intros Ha. pose proof unit_pos.
  assert (huge = 2 ^ 1024 * unit) by reflexivity.
  assert (2 ^ prec < 2 ^ 1024) by done. nia.
Qed.

Lemma add_zero_l x : amount_ok x -> add (Fin 0) x = x.
Proof.
  destruct x as [b| | |]; try done.
  intros [Hb Hf]. cbn [add]. rewrite Z.add_0_l, round_of_nonneg by lia.
  rewrite <- (Z.mul_1_r b) at 1. by apply round_pos_exact.
Qed.

Lemma digits_value_app ds es :
  digits_value (ds ++ es)
  = fold_left (fun acc c => 10 * acc + digit_value c) es (digits_value ds).
Proof. unfold digits_value. apply fold_left_app. Qed.

Lemma digits_value_zeros acc k :
  fold_left (fun acc c => 10 * acc + digit_value c) (repeat "0"%char k) acc
  = acc * 10 ^ Z.of_nat k.
Proof.
  revert acc. induction k as [|k IH]; intros acc.
  - simpl. lia.
  - cbn [repeat fold_left]. rewrite IH.
    replace (digit_value "0") with 0 by reflexivity.
    rewrite Nat2Z.inj_succ, Z.pow_succ_r by lia. lia.
Qed.

Lemma take_while_all p s rest :
  Forall (fun c => p c = true) s ->
  match rest with [] => True | c :: _ => p c = false end ->
  take_while p (s ++ rest) = s /\ drop_while p (s ++ rest) = rest.
Proof.
  intros Hs Hrest. induction Hs as [|c s Hc _ IH].
  - destruct rest as [|c rest]; [done|]. simpl. by rewrite Hrest.
  - simpl. rewrite Hc. destruct IH as [-> ->]. done.
Qed.

Lemma repeat_zero_digits k : Forall (fun c => is_digit c = true) (repeat "0"%char k).
Proof. induction k; simpl; by constructor. Qed.

(** An amount written as a whole number of dollars below 2^53, with or
    without a point and zeros after it, is converted without rounding. *)
Theorem whole_dollar_text_is_exact (ds : str) (k : nat) :
  Forall (fun c => is_digit c = true) ds ->
  digits_value ds < 2 ^ 53 ->
  of_decimal ds = Fin (digits_value ds * unit) /\
  of_decimal (ds ++ "."%char :: repeat "0"%char k) = Fin (digits_value ds * unit).
Proof.
  intros Hds Hlt.
  assert (H0 : 0 <= digits_value ds)
    by (apply digits_value_from_nonneg; [done|lia]).
  pose proof (whole_lt_huge (digits_value ds) ltac:(unfold prec; lia)) as Hh.
  pose proof (format_whole (digits_value ds) ltac:(unfold prec; lia)) as Hf.
  pose proof unit_pos as Hu.
  split.
  - unfold of_decimal.
    destruct (take_while_all is_digit ds [] Hds I) as [Ht Hd].
    rewrite app_nil_r in Ht, Hd. rewrite Ht, Hd. cbn [length app].
    rewrite app_nil_r, round_of_nonneg by nia.
    change (10 ^ Z.of_nat 0) with 1.
    rewrite <- (Z.mul_1_r (digits_value ds * unit)) at 1.
    by apply round_pos_exact.
  - unfold of_decimal.
    destruct (take_while_all is_digit ds ("."%char :: repeat "0"%char k) Hds eq_refl)
      as [Ht Hd].
    rewrite Ht, Hd. rewrite bool_decide_eq_true_2 by done.
    destruct (take_while_all is_digit (repeat "0"%char k) [] (repeat_zero_digits k) I)
      as [Ht' _].
    rewrite app_nil_r in Ht'. rewrite Ht'.
    rewrite digits_value_app, digits_value_zeros, repeat_length.
    assert (0 < 10 ^ Z.of_nat k) by (apply Z.pow_pos_nonneg; lia).
    rewrite round_of_nonneg by nia.
    replace (digits_value ds * 10 ^ Z.of_nat k * unit)
      with (digits_value ds * unit * 10 ^ Z.of_nat k) by lia.
    by apply round_pos_exact.
Qed.

Lemma whole_dollar_text_witness :
  of_decimal (s2l "15") = Fin (digits_value (s2l "15") * unit) /\
  of_decimal (s2l "15" ++ "."%char :: repeat "0"%char 2)
  = Fin (digits_value (s2l "15") * unit).
Proof.
  apply whole_dollar_text_is_exact.
  - vm_compute. by repeat constructor.
  - vm_compute. reflexivity.
Defined.

(** Whole-dollar amounts add up without rounding while the sum stays
    below 2^53. *)
Theorem whole_dollar_sum_is_exact (a b : Z) :
  0 <= a -> 0 <= b -> a + b < 2 ^ 53 ->
  add (Fin (a * unit)) (Fin (b * unit)) = Fin ((a + b) * unit).
Proof.
  intros Ha Hb Hlt. pose proof unit_pos as Hu. cbn [add].
  rewrite round_of_nonneg by nia.
  replace (a * unit + b * unit) with ((a + b) * unit * 1) by lia.
  apply round_pos_exact; [|apply format_whole|lia]; [apply whole_lt_huge|];
    unfold prec; lia.
Qed.

Lemma whole_dollar_sum_witness :
  add (Fin (5 * unit)) (Fin (10 * unit)) = Fin ((5 + 10) * unit).
Proof. apply whole_dollar_sum_is_exact; [lia|lia|vm_compute; reflexivity]. Defined.

(** For a whole number of dollars (below 5 * 2^50) the number of guests
    covered is the integer quotient by 5: the float division and the
    truncation lose nothing. *)
Theorem whole_dollars_cover_quotient_by_five (a : Z) :
  0 <= a < 5 * 2 ^ 50 ->
  guests_covered_of (Fin (a * unit)) = Ok (a / 5).
Proof.
  intros Ha. pose proof unit_pos as Hu.
  rewrite guests_covered_of_Fin by nia.
  set (f := a / 5).
  assert (Hf : 0 <= f < 2 ^ 50).
  { unfold f. split; [apply Z.div_pos; lia|apply Z.div_lt_upper_bound; lia]. }
  assert (Hmod : 5 * f <= a <= 5 * f + 4).
  { unfold f. pose proof (Z.mod_pos_bound a 5 ltac:(lia)).
    pose proof (Z.div_mod a 5 ltac:(lia)). lia. }
  set (e := 2 ^ 1071).
  assert (He : 0 < e) by done.
  assert (Hunit : unit = 8 * e) by reflexivity.
  assert (Hlow : format (f * unit)) by (apply format_whole; unfold prec; lia).
  assert (Hup : format ((8 * f + 7) * 2 ^ 1071))
    by (apply format_mul_pow2; [unfold prec; lia|done]).
  fold e in Hup.
  pose proof (round_pos_ge (a * unit * unit) (5 * unit) (f * unit)
                ltac:(lia) ltac:(nia) Hlow ltac:(nia)) as Hge.
  destruct (round_pos_le (a * unit * unit) (5 * unit) ((8 * f + 7) * e)
              ltac:(nia) ltac:(lia) Hup) as (r & Hr & Hr0 & Hle).
  - rewrite Hunit. nia.
  - assert (huge = 2 ^ 1027 * e) by reflexivity. nia.
  - rewrite Hr in Hge |- *. cbn [to_int]. f_equal.
    rewrite Z.quot_div_nonneg by lia.
    symmetry. apply Z.div_unique with (r := r - f * unit); [|lia].
    left. rewrite Hunit in *. lia.
Qed.

Lemma whole_dollars_cover_witness :
  guests_covered_of (Fin (14 * unit)) = Ok (14 / 5).
Proof. apply whole_dollars_cover_quotient_by_five. split; [lia|vm_compute; reflexivity]. Defined.

(** ** What a match of the two patterns looks like *)

Section RunSound.
Context {A : Type}.
Implicit Types (k : str -> option A) (s w : str).

Lemma lit_sound w s k a :
  lit w s k = Some a ->
  exists v rest, s = v ++ rest /\ lower v = lower w /\ k rest = Some a.
Proof.
  revert s. induction w as [|c w IH]; intros s; simpl.
  - intros H. by exists [], s.
  - destruct s as [|d s]; [done|].
    unfold same_letter. destruct (decide (lower_char c = lower_char d)) as [E|E].
    + rewrite bool_decide_eq_true_2 by done.
      intros (v & rest & -> & Hv & Hk)%IH.
      exists (d :: v), rest. simpl. by rewrite Hv, E.
    + by rewrite bool_decide_eq_false_2.
Qed.

Lemma many_sound greedy p least s k a :
  many greedy p least s k = Some a ->
  exists w rest,
    s = w ++ rest /\ Forall (fun c => p c = true) w /\
    (least <= length w)%nat /\ k rest = Some a.
Proof.
  revert least. induction s as [|c s IH]; intros least.
  - simpl. intros H.
    assert (Hk : least = O /\ k [] = Some a).
    { destruct least, greedy; try done; by destruct (k []). }
    destruct Hk as [-> Hk]. exists [], []. by repeat split.
  - cbn [many].
    assert (Hstop : match least with O => k (c :: s) | S _ => None end = Some a ->
                    exists w rest, c :: s = w ++ rest /\
                      Forall (fun c => p c = true) w /\
                      (least <= length w)%nat /\ k rest = Some a).
    { destruct least; [|done]. intros H. exists [], (c :: s). by repeat split. }
    assert (Hmore : (if p c then many greedy p (Nat.pred least) s k else None) = Some a ->
                    exists w rest, c :: s = w ++ rest /\
                      Forall (fun c => p c = true) w /\
                      (least <= length w)%nat /\ k rest = Some a).
    { destruct (p c) eqn:Ec; [|done].
      intros (w & rest & -> & Hw & Hlen & Hk)%IH.
      exists (c :: w), rest. repeat split; [by constructor|simpl; lia|done]. }
    destruct greedy.
    + destruct (if p c then _ else _) eqn:E; [|exact Hstop].
      intros [= ->]. by apply Hmore.
    + destruct (match least with O => _ | S _ => _ end) eqn:E; [|exact Hmore].
      intros [= ->]. by apply Hstop.
Qed.

End RunSound.

Lemma lower_char_not_lower c : is_lower (lower_char c) = false -> lower_char c = c.
Proof. by destruct c as [[] [] [] [] [] [] [] []]. Qed.

Lemma keyword_symbol (d : ascii) v :
  is_lower d = false -> lower_char d = d -> lower v = lower [d] -> v = [d].
Proof.
  intros Hd Hdd. destruct v as [|c [|c' v]]; try done.
  simpl. rewrite Hdd. intros [= H].
  f_equal. rewrite <- H. symmetry. apply lower_char_not_lower. by rewrite H.
Qed.

Lemma consumed_app x s : consumed (x ++ s) s = x.
Proof.
  unfold consumed. rewrite length_app.
  replace (length x + length s - length s)%nat with (length x) by lia.
  by rewrite take_app_length.
Qed.

Lemma length_pos_nonempty {X} (l : list X) : (1 <= length l)%nat -> l <> [].
Proof. destruct l; simpl; [lia|done]. Qed.

Section PatternSound.
Context {A : Type}.
Implicit Types (k : str -> captures -> option A).

Lemma spaces_sound s caps k a :
  run (Many true 1 is_space) s caps k = Some a ->
  exists w rest, s = w ++ rest /\ spaces w /\ k rest caps = Some a.
Proof.
  cbn [run]. intros (w & rest & -> & Hw & Hlen & Hk)%many_sound.
  exists w, rest. repeat split; [by apply length_pos_nonempty|done|done].
Qed.

Lemma amount_pattern_sound s caps k a :
  run amount_pattern s caps k = Some a ->
  exists amount rest,
    s = "$"%char :: amount ++ rest /\ decimal_text amount /\
    k rest ((2%nat, amount) :: caps) = Some a.
Proof.
  unfold amount_pattern. cbn [run].
  intros (v & s1 & -> & Hv & H)%lit_sound.
  apply (keyword_symbol "$"%char) in Hv; [|done..]. subst v.
  apply many_sound in H as (d1 & s2 & -> & Hd1 & Hlen & H).
  destruct (lit (s2l ".") s2 _) as [a'|] eqn:E.
  - injection H as ->.
    apply lit_sound in E as (v & s3 & -> & Hv & H).
    apply (keyword_symbol "."%char) in Hv; [|done..]. subst v.
    apply many_sound in H as (d2 & s4 & -> & Hd2 & _ & H).
    exists (d1 ++ "."%char :: d2), s4.
    assert (Happ : d1 ++ ["."%char] ++ d2 ++ s4 = (d1 ++ "."%char :: d2) ++ s4)
      by (by rewrite <- app_assoc).
    rewrite Happ, consumed_app in H.
    split; [by rewrite <- Happ|]. split; [|done].
    exists d1, d2. repeat split; [by apply length_pos_nonempty|done|done|by right].
  - apply many_sound in H as (d2 & s4 & -> & Hd2 & _ & H).
    exists (d1 ++ d2), s4.
    rewrite app_assoc, consumed_app in H.
    split; [by rewrite <- app_assoc|]. split; [|done].
    exists (d1 ++ d2), []. repeat split; [|by apply Forall_app|done|by left].
    apply length_pos_nonempty. rewrite length_app. lia.
Qed.

Lemma payment_pattern_sound verb s caps k a :
  run (payment_pattern verb) s caps k = Some a ->
  exists payer amount rest,
    payment_layout verb s payer amount rest /\
    k rest ((2%nat, amount) :: (1%nat, payer) :: caps) = Some a.
Proof.
  unfold payment_pattern.
  change (run (?r1 >>> ?r2) s caps k)
    with (run r1 s caps (fun s' caps' => run r2 s' caps' k)).
  cbn [run]. destruct s as [|c s]; [done|].
  destruct (is_alpha c) eqn:Hc; [|done].
  intros (x & s1 & -> & Hx & Hlen & H)%many_sound.
  apply many_sound in H as (w1 & s2 & -> & Hw1 & Hl1 & H).
  apply lit_sound in H as (v & s3 & -> & Hv & H).
  apply many_sound in H as (w2 & s4 & -> & Hw2 & Hl2 & H).
  apply lit_sound in H as (y & s5 & -> & Hy & H).
  apply many_sound in H as (w3 & s6 & -> & Hw3 & Hl3 & H).
  apply amount_pattern_sound in H as (amount & rest & -> & Hamount & H).
  exists (c :: x), amount, rest.
  change (c :: x ++ ?t) with ((c :: x) ++ t) in H.
  rewrite consumed_app in H. split; [|done].
  exists w1, v, w2, y, w3.
  repeat split; try done; try by apply length_pos_nonempty.
  exists c, x. repeat split; [done|by apply length_pos_nonempty|done].
Qed.

End PatternSound.

Lemma paid_pattern_eq : paid_pattern = payment_pattern (s2l "paid").
Proof. reflexivity. Qed.

Lemma sent_pattern_eq :
  sent_pattern
  = Maybe (Lit (s2l "BofA:") >>> Many true 1 is_space) >>> payment_pattern (s2l "sent").
Proof. reflexivity. Qed.

Lemma search_sound r s caps :
  search r s = Some caps ->
  exists pre s', s = pre ++ s' /\ run r s' [] (fun _ c => Some c) = Some caps.
Proof.
  induction s as [|c s IH]; cbn [search].
  - destruct (run r [] [] _) eqn:E; [|done]. intros [= ->]. by exists [], [].
  - destruct (run r (c :: s) [] _) eqn:E.
    + intros [= ->]. by exists [], (c :: s).
    + intros (pre & s' & -> & H)%IH. by exists (c :: pre), s'.
Qed.

(** A match of the paid pattern anywhere in a line lays the line out as
    some text, a payer, the words, the amount, and some text; groups 1
    and 2 are the payer and the amount. *)
Lemma search_paid_sound line m :
  search paid_pattern line = Some m ->
  exists pre payer amount rest,
    line = pre ++ payer ++ rest /\
    (exists rest', payment_layout (s2l "paid") (payer ++ rest) payer amount rest') /\
    group m 1 = payer /\ group m 2 = amount.
Proof.
  intros (pre & s' & -> & H)%search_sound.
  rewrite paid_pattern_eq in H.
  apply payment_pattern_sound in H as (payer & amount & rest & Hlay & [= <-]).
  destruct Hlay as (w1 & v & w2 & y & w3 & -> & Hrest).
  exists pre, payer, amount, (w1 ++ v ++ w2 ++ y ++ w3 ++ "$"%char :: amount ++ rest).
  split; [done|]. split; [|done].
  exists rest, w1, v, w2, y, w3. by split.
Qed.

Lemma search_sent_sound line m :
  search sent_pattern line = Some m ->
  exists pre payer amount rest,
    line = pre ++ payer ++ rest /\
    (exists rest', payment_layout (s2l "sent") (payer ++ rest) payer amount rest') /\
    group m 1 = payer /\ group m 2 = amount.
Proof.
  intros (pre & s' & -> & H)%search_sound.
  rewrite sent_pattern_eq in H.
  change (run (?r1 >>> ?r2) s' [] ?k)
    with (run r1 s' [] (fun s'' caps' => run r2 s'' caps' k)) in H.
  cbn [run] in H.
  assert (Hcore : exists pre2 s2,
             s' = pre2 ++ s2 /\
             run (payment_pattern (s2l "sent")) s2 [] (fun _ c => Some c) = Some m).
  { destruct (lit (s2l "BofA:") s' _) as [a'|] eqn:E.
    - injection H as ->.
      apply lit_sound in E as (v & s1 & -> & _ & E).
      apply many_sound in E as (w & s2 & -> & _ & _ & E).
      exists (v ++ w), s2. by rewrite <- app_assoc.
    - by exists [], s'. }
  destruct Hcore as (pre2 & s2 & -> & Hrun).
  apply payment_pattern_sound in Hrun as (payer & amount & rest & Hlay & [= <-]).
  destruct Hlay as (w1 & v & w2 & y & w3 & -> & Hrest).
  exists (pre ++ pre2), payer, amount,
    (w1 ++ v ++ w2 ++ y ++ w3 ++ "$"%char :: amount ++ rest).
  split; [by rewrite <- app_assoc|]. split; [|done].
  exists rest, w1, v, w2, y, w3. by split.
Qed.

(** ** What the extractor can put in the ledger *)

Lemma matched_groups_shape line m :
  search paid_pattern line = Some m \/ search sent_pattern line = Some m ->
  payer_text (group m 1) /\ decimal_text (group m 2).
Proof.
  intros [H|H].
  - apply search_paid_sound in H
      as (pre & payer & amount & rest & _ & (rest' & Hlay) & -> & ->).
    destruct Hlay as (w1 & v & w2 & y & w3 & _ & Hp & _ & _ & _ & _ & _ & Hd).
    done.
  - apply search_sent_sound in H
      as (pre & payer & amount & rest & _ & (rest' & Hlay) & -> & ->).
    destruct Hlay as (w1 & v & w2 & y & w3 & _ & Hp & _ & _ & _ & _ & _ & Hd).
    done.
Qed.

(** Whenever one of the two patterns matches, group 1 is a letter
    followed by name characters and group 2 is digits with at most one
    point after the first digits: [float] is only given text that it
    accepts, so the conversion of line 33 and line 45 cannot raise. *)
Theorem matched_groups_have_their_shape (line : str) (m : captures) :
  search paid_pattern line = Some m \/ search sent_pattern line = Some m ->
  payer_text (group m 1) /\ decimal_text (group m 2).
Proof. apply matched_groups_shape. Qed.

Lemma matched_groups_witness :
  payer_text (group [(2%nat, s2l "5.00"); (1%nat, s2l "Al Ma")] 1) /\
  decimal_text (group [(2%nat, s2l "5.00"); (1%nat, s2l "Al Ma")] 2).
Proof.
  apply (matched_groups_have_their_shape (s2l "Al Ma paid you $5.00")).
  left. vm_compute. reflexivity.
Defined.

Lemma is_alpha_not_space c : is_alpha c = true -> is_space c = false.
Proof. by destruct c as [[] [] [] [] [] [] [] []]. Qed.

Lemma is_alpha_lower_char c : is_alpha c = true -> is_lower (lower_char c) = true.
Proof. by destruct c as [[] [] [] [] [] [] [] []]. Qed.

Lemma payer_key_head x :
  payer_text x ->
  exists c r, normalize_name (strip x) = c :: r /\ is_lower c = true.
Proof.
  intros (c & rest & -> & Hc & _ & _).
  rewrite normalize_name_strip. unfold normalize_name, strip.
  pose proof (is_alpha_not_space c Hc) as Hs.
  rewrite lstrip_not_space by done.
  destruct (rstrip_head_not_space c rest Hs) as [r ->].
  exists (lower_char c), (lower r). split; [done|by apply is_alpha_lower_char].
Qed.

Lemma dict_set_elem_of_keys {V} (d : list (str * V)) k v k' :
  k' ∈ (Dict.set d k v).*1 -> k' ∈ d.*1 \/ k' = k.
Proof.
  rewrite dict_set_keys. destruct (decide (k ∈ d.*1)); [by left|].
  rewrite elem_of_app, list_elem_of_singleton. tauto.
Qed.

Lemma record_payment_keys payments m :
  payer_text (group m 1) ->
  Forall payer_key payments.*1 ->
  Forall payer_key (record_payment payments m).*1.
Proof.
  intros Hp Hall. rewrite Forall_forall in Hall |- *.
  intros k Hk. unfold record_payment in Hk.
  assert (Hcase : k ∈ payments.*1 \/ k = normalize_name (strip (group m 1))).
  { destruct (Dict.get payments _); by apply dict_set_elem_of_keys in Hk. }
  destruct Hcase as [Hin| ->]; [by apply Hall|].
  split; [apply normalize_name_fixed|by apply payer_key_head].
Qed.

Lemma parse_line_keys payments raw :
  Forall payer_key payments.*1 -> Forall payer_key (parse_line payments raw).*1.
Proof.
  intros H. unfold parse_line.
  destruct (strip raw) as [|c line] eqn:El; [done|].
  destruct (is_header _); [done|].
  destruct (search paid_pattern _) as [m|] eqn:E1.
  - apply record_payment_keys; [|done].
    by apply (matched_groups_shape (c :: line)); left.
  - destruct (search sent_pattern _) as [m|] eqn:E2; [|done].
    apply record_payment_keys; [|done].
    by apply (matched_groups_shape (c :: line)); right.
Qed.

(** Every name under which the ledger holds an amount is a normalized
    name (a fixed point of [normalize_name]) that begins with a
    lower-case letter; in particular the empty name is never a payer. *)
Theorem ledger_keys_are_normalized_names (lines : list str) (k : str) :
  k ∈ (parse_payments lines).*1 ->
  normalize_name k = k /\ exists c r, k = c :: r /\ is_lower c = true.
Proof.
  unfold parse_payments.
  assert (H : Forall payer_key ([] : ledger).*1) by constructor.
  revert H. generalize ([] : ledger).
  induction lines as [|l lines IH]; intros payments H Hk.
  - rewrite Forall_forall in H. by apply H.
  - cbn [fold_left] in Hk.
    apply (IH (parse_line payments l)); [by apply parse_line_keys|done].
Qed.

Lemma ledger_keys_witness :
  normalize_name (s2l "al ma") = s2l "al ma" /\
  exists c r, s2l "al ma" = c :: r /\ is_lower c = true.
Proof.
  apply (ledger_keys_are_normalized_names [s2l " Al Ma  paid you $5.00 "]).
  vm_compute. by left.
Defined.

(** ** Lines without a dollar sign *)

Lemma lstrip_subseteq s c : c ∈ lstrip s -> c ∈ s.
Proof.
  induction s as [|d s IH]; simpl; [done|].
  destruct (is_space d); [|done]. intros H. right. by apply IH.
Qed.

Lemma rstrip_subseteq s c : c ∈ rstrip s -> c ∈ s.
Proof.
  induction s as [|d s IH]; [done|].
  rewrite rstrip_cons. destruct (rstrip s) as [|e r].
  - destruct (is_space d); [by intros ?%elem_of_nil|].
    intros ->%list_elem_of_singleton. by left.
  - rewrite !elem_of_cons. intros [->|H]; [by left|]. right.
    by apply IH, elem_of_cons.
Qed.

Lemma strip_subseteq s c : c ∈ strip s -> c ∈ s.
Proof. unfold strip. intros H. by apply lstrip_subseteq, rstrip_subseteq. Qed.

Lemma payment_layout_dollar verb s payer amount rest :
  payment_layout verb s payer amount rest -> "$"%char ∈ s.
Proof.
  intros (w1 & v & w2 & y & w3 & -> & _).
  rewrite !elem_of_app. do 6 right. by left.
Qed.

(** A line without a dollar sign matches neither pattern and leaves the
    ledger as it is. *)
Theorem line_without_dollar_is_ignored (payments : ledger) (raw : str) :
  "$"%char ∉ raw -> parse_line payments raw = payments.
Proof.
  intros Hno. unfold parse_line.
  destruct (strip raw) as [|c line] eqn:El; [done|].
  destruct (is_header _); [done|].
  assert (Hline : "$"%char ∉ c :: line).
  { intros H. apply Hno, strip_subseteq. by rewrite El. }
  destruct (search paid_pattern _) as [m|] eqn:E1.
  - apply search_paid_sound in E1 as (pre & payer & amount & rest & Hl & (r' & Hlay) & _).
    destruct Hline. rewrite Hl, elem_of_app. right.
    by apply payment_layout_dollar in Hlay.
  - destruct (search sent_pattern _) as [m|] eqn:E2; [|done].
    apply search_sent_sound in E2 as (pre & payer & amount & rest & Hl & (r' & Hlay) & _).
    destruct Hline. rewrite Hl, elem_of_app. right.
    by apply payment_layout_dollar in Hlay.
Qed.

Lemma line_without_dollar_witness :
  parse_line [(s2l "al ma", Fin (5 * unit))] (s2l "Bo Li paid you 5 dollars")
  = [(s2l "al ma", Fin (5 * unit))].
Proof.
  apply line_without_dollar_is_ignored. vm_compute.
  intros H. repeat (apply elem_of_cons in H as [H|H]; [discriminate H|]).
  by apply elem_of_nil in H.
Defined.

(** ** The order of the ledger *)

Lemma record_payment_keeps_order payments m :
  exists k,
    ((record_payment payments m).*1 = payments.*1 \/
     ((k ∉ payments.*1) /\ (record_payment payments m).*1 = payments.*1 ++ [k])) /\
    forall k', k' <> k ->
      Dict.get (record_payment payments m) k' = Dict.get payments k'.
Proof.
  exists (normalize_name (strip (group m 1))). unfold record_payment.
  split.
  - destruct (Dict.get payments _) eqn:E; rewrite dict_set_keys;
      destruct (decide (_ ∈ payments.*1)); try (by left); right; done.
  - intros k' Hne.
    destruct (Dict.get payments (normalize_name _)); rewrite dict_get_set;
      by rewrite decide_False.
Qed.

(** One line changes at most one amount and never moves a payer: the
    names of the ledger keep their places, a new payer goes to the end,
    and the amounts under all other names are untouched.  So the place
    of a payer in the scan for a fuzzy match is fixed by the payer's
    first matching line. *)
Theorem parse_line_keeps_ledger_order (payments : ledger) (raw : str) :
  exists k,
    ((parse_line payments raw).*1 = payments.*1 \/
     ((k ∉ payments.*1) /\ (parse_line payments raw).*1 = payments.*1 ++ [k])) /\
    forall k', k' <> k ->
      Dict.get (parse_line payments raw) k' = Dict.get payments k'.
Proof.
  unfold parse_line.
  destruct (strip raw); [exists []; split; [by left|done]|].
  destruct (is_header _); [exists []; split; [by left|done]|].
  destruct (search paid_pattern _); [apply record_payment_keeps_order|].
  destruct (search sent_pattern _); [apply record_payment_keeps_order|].
  exists []. split; [by left|done].
Qed.

(** ** Lines that the patterns do match *)

Section RunComplete.
Context {A : Type}.
Implicit Types (k : str -> option A) (s w : str).

Lemma lit_complete w v rest k :
  lower v = lower w -> lit w (v ++ rest) k = k rest.
Proof.
  revert v. induction w as [|c w IH]; intros v Hv.
  - by destruct v.
  - destruct v as [|d v]; [done|]. injection Hv as Hd Hv.
    cbn [app lit]. unfold same_letter.
    rewrite bool_decide_eq_true_2 by done. by apply IH.
Qed.

Lemma many_stop_here greedy p s k :
  match s with [] => True | c :: _ => p c = false end ->
  many greedy p 0 s k = k s.
Proof.
  destruct s as [|c s]; simpl.
  - intros _. destruct greedy; [done|by destruct (k [])].
  - intros ->. destruct greedy; [done|by destruct (k (c :: s))].
Qed.

Lemma many_greedy_all p least w rest k a :
  Forall (fun c => p c = true) w ->
  (least <= length w)%nat ->
  match rest with [] => True | c :: _ => p c = false end ->
  k rest = Some a ->
  many true p least (w ++ rest) k = Some a.
Proof.
  intros Hw. revert least. induction Hw as [|c w Hc _ IH]; intros least Hlen Hrest Hk.
  - simpl in Hlen. assert (least = O) as -> by lia.
    cbn [app]. by rewrite many_stop_here.
  - cbn [app many]. rewrite Hc.
    rewrite (IH (Nat.pred least)); [done| |done|done]. simpl in Hlen. lia.
Qed.

Lemma many_lazy_first p least x t k a :
  Forall (fun c => p c = true) x ->
  (least <= length x)%nat ->
  k t = Some a ->
  (forall x1 x2, x = x1 ++ x2 -> (least <= length x1)%nat -> x2 <> [] ->
                 k (x2 ++ t) = None) ->
  many false p least (x ++ t) k = Some a.
Proof.
  intros Hx. revert least.
  induction Hx as [|c x Hc _ IH]; intros least Hlen Hk Hfail.
  - simpl in Hlen. assert (least = O) as -> by lia. cbn [app].
    destruct t; simpl; by rewrite Hk.
  - cbn [app many]. rewrite Hc.
    assert (Hmore : many false p (Nat.pred least) (x ++ t) k = Some a).
    { apply IH; [simpl in Hlen; lia|done|].
      intros x1 x2 -> Hl Hne. apply (Hfail (c :: x1) x2); [done|simpl; lia|done]. }
    rewrite Hmore. destruct least as [|l]; [|done].
    pose proof (Hfail [] (c :: x) eq_refl ltac:(simpl; lia) ltac:(done)) as Hstop.
    cbn [app] in Hstop. by rewrite Hstop.
Qed.

End RunComplete.

(** *** Aligning two layouts of one text *)

Lemma rstrip_app_not_space x c rest :
  is_space c = false -> rstrip (x ++ c :: rest) = x ++ c :: rstrip rest.
Proof.
  intros Hc. induction x as [|d x IH].
  - cbn [app]. rewrite rstrip_cons. destruct (rstrip rest); [by rewrite Hc|done].
  - cbn [app]. rewrite rstrip_cons, IH. by destruct x.
Qed.

Lemma rstrip_word_blank x w :
  ends_word x -> blank w -> rstrip (x ++ w) = x.
Proof.
  intros (x0 & d & -> & Hd) Hw.
  rewrite <- app_assoc. cbn [app].
  by rewrite rstrip_app_not_space, rstrip_blank.
Qed.

Lemma blank_suffix_unique x w x' w' :
  ends_word x -> ends_word x' -> blank w -> blank w' ->
  x ++ w = x' ++ w' -> x = x' /\ w = w'.
Proof.
  intros Hx Hx' Hw Hw' Heq.
  assert (x = x') as <-.
  { rewrite <- (rstrip_word_blank x w), <- (rstrip_word_blank x' w') by done.
    by rewrite Heq. }
  split; [done|]. by apply app_inv_head in Heq.
Qed.

Lemma ends_word_app x y : ends_word y -> ends_word (x ++ y).
Proof.
  intros (y0 & d & -> & Hd). exists (x ++ y0), d. by rewrite app_assoc.
Qed.

Lemma is_alpha_lower_char_eq c : is_alpha (lower_char c) = is_alpha c.
Proof. by destruct c as [[] [] [] [] [] [] [] []]. Qed.

Lemma keyword_alpha kw w :
  keyword kw w -> Forall (fun c => is_alpha c = true) kw ->
  Forall (fun c => is_alpha c = true) w.
Proof.
  unfold keyword. intros Heq Hkw. revert w Heq.
  induction Hkw as [|c kw Hc _ IH]; intros w Heq.
  - destruct w; [constructor|done].
  - destruct w as [|d w]; [done|]. injection Heq as Hd Hw.
    constructor; [|by apply IH].
    by rewrite <- is_alpha_lower_char_eq, Hd, is_alpha_lower_char_eq.
Qed.

Lemma keyword_length kw w : keyword kw w -> length w = length kw.
Proof.
  unfold keyword, lower. intros H. apply (f_equal length) in H.
  by rewrite !length_map in H.
Qed.

Lemma alpha_ends_word w :
  w <> [] -> Forall (fun c => is_alpha c = true) w -> ends_word w.
Proof.
  intros Hne Hw. destruct (exists_last Hne) as (w0 & d & ->).
  exists w0, d. split; [done|].
  apply Forall_app in Hw as [_ Hd]. apply Forall_cons in Hd as [Hd _].
  by apply is_alpha_not_space.
Qed.

Lemma keyword_ends_word kw w :
  keyword kw w -> kw <> [] -> Forall (fun c => is_alpha c = true) kw -> ends_word w.
Proof.
  intros Hk Hne Hkw. apply alpha_ends_word; [|by apply (keyword_alpha kw)].
  apply keyword_length in Hk. destruct w; [|done]. by destruct kw.
Qed.

(** Two layouts [s ++ v ++ w2 ++ y ++ w3] of one text, with words of the
    same lengths, have the same front and the same first word. *)
Lemma layout_align s v w2 y w3 s' v' w2' y' w3' :
  s ++ v ++ w2 ++ y ++ w3 = s' ++ v' ++ w2' ++ y' ++ w3' ->
  ends_word v -> ends_word v' -> length v = length v' ->
  ends_word y -> ends_word y' -> length y = length y' ->
  blank w2 -> blank w2' -> blank w3 -> blank w3' ->
  s = s' /\ v = v'.
Proof.
  intros Heq Hv Hv' Hlv Hy Hy' Hly Hw2 Hw2' Hw3 Hw3'.
  assert (H1 : (s ++ v ++ w2 ++ y) ++ w3 = (s' ++ v' ++ w2' ++ y') ++ w3')
    by (by rewrite <- !app_assoc).
  apply blank_suffix_unique in H1 as [H1 _]; try done;
    [|rewrite !app_assoc; by apply ends_word_app..].
  assert (H2 : (s ++ v ++ w2) ++ y = (s' ++ v' ++ w2') ++ y')
    by (by rewrite <- !app_assoc).
  apply app_inj_2 in H2 as [H2 _]; [|done].
  assert (H3 : (s ++ v) ++ w2 = (s' ++ v') ++ w2')
    by (by rewrite <- !app_assoc).
  apply blank_suffix_unique in H3 as [H3 _]; try done;
    [|by apply ends_word_app..].
  by apply app_inj_2 in H3.
Qed.

(** *** The words and the amount *)

Lemma payment_pattern_words verb :
  payment_pattern verb
  = Group 1 (Class is_alpha >>> Many false 1 name_char) >>> words_pattern verb.
Proof. reflexivity. Qed.

Section WordsPattern.
Context {A : Type}.
Implicit Types (k : str -> captures -> option A).

Lemma words_pattern_sound verb s caps k a :
  run (words_pattern verb) s caps k = Some a ->
  exists w1 v w2 y w3 amount rest,
    s = w1 ++ v ++ w2 ++ y ++ w3 ++ "$"%char :: amount ++ rest /\
    spaces w1 /\ keyword verb v /\ spaces w2 /\ keyword (s2l "you") y /\
    spaces w3 /\ decimal_text amount /\
    k rest ((2%nat, amount) :: caps) = Some a.
Proof.
  unfold words_pattern. cbn [run].
  intros (w1 & s2 & -> & Hw1 & Hl1 & H)%many_sound.
  apply lit_sound in H as (v & s3 & -> & Hv & H).
  apply many_sound in H as (w2 & s4 & -> & Hw2 & Hl2 & H).
  apply lit_sound in H as (y & s5 & -> & Hy & H).
  apply many_sound in H as (w3 & s6 & -> & Hw3 & Hl3 & H).
  apply amount_pattern_sound in H as (amount & rest & -> & Hamount & H).
  exists w1, v, w2, y, w3, amount, rest.
  repeat split; try done; by apply length_pos_nonempty.
Qed.

Lemma lit_point_fails rest (k' : str -> option A) :
  amount_stops rest -> lit (s2l ".") rest k' = None.
Proof.
  destruct rest as [|c rest]; [done|]. intros [_ Hc].
  cbn [s2l list_ascii_of_string lit]. unfold same_letter.
  rewrite bool_decide_eq_false_2; [done|].
  intros Heq. apply Hc.
  assert (Hl : lower_char c = "."%char) by (by rewrite <- Heq).
  rewrite <- Hl. symmetry. apply lower_char_not_lower. by rewrite Hl.
Qed.

Lemma amount_stops_digit rest :
  amount_stops rest -> match rest with [] => True | c :: _ => is_digit c = false end.
Proof. destruct rest; [done|]. by intros [? _]. Qed.

Lemma amount_pattern_complete amount rest caps k a :
  decimal_text amount -> amount_stops rest ->
  k rest ((2%nat, amount) :: caps) = Some a ->
  run amount_pattern ("$"%char :: amount ++ rest) caps k = Some a.
Proof.
  intros (d1 & d2 & Hne & Hd1 & Hd2 & Hshape) Hstop Hk.
  unfold amount_pattern. cbn [run].
  change ("$"%char :: amount ++ rest) with (s2l "$" ++ amount ++ rest).
  rewrite lit_complete by done.
  assert (Hl1 : (1 <= length d1)%nat) by (destruct d1; [done|simpl; lia]).
  destruct Hshape as [->| ->].
  - apply many_greedy_all; [done|done|by apply amount_stops_digit|].
    rewrite lit_point_fails by done.
    rewrite many_stop_here by (by apply amount_stops_digit).
    by rewrite consumed_app.
  - rewrite <- app_assoc.
    apply many_greedy_all; [done|done|done|].
    change (("."%char :: d2) ++ rest) with (s2l "." ++ d2 ++ rest).
    rewrite lit_complete by done.
    rewrite (many_greedy_all is_digit 0 d2 rest _ a); [done|done|lia| |].
    + by apply amount_stops_digit.
    + change (s2l "." ++ d2 ++ rest) with (("."%char :: d2) ++ rest).
      by rewrite app_assoc, consumed_app.
Qed.

Lemma head_not_space_of_alpha (w rest : str) :
  w <> [] -> Forall (fun c => is_alpha c = true) w ->
  match w ++ rest with [] => True | c :: _ => is_space c = false end.
Proof.
  destruct w as [|c w]; [done|]. intros _ Hw%Forall_cons. destruct Hw as [Hc _].
  by apply is_alpha_not_space.
Qed.

Lemma keyword_nonempty kw w : keyword kw w -> kw <> [] -> w <> [].
Proof. intros Hk%keyword_length Hne ->. by destruct kw. Qed.

Lemma words_pattern_complete verb w1 v w2 y w3 amount rest caps k a :
  verb <> [] -> Forall (fun c => is_alpha c = true) verb ->
  spaces w1 -> keyword verb v -> spaces w2 -> keyword (s2l "you") y ->
  spaces w3 -> decimal_text amount -> amount_stops rest ->
  k rest ((2%nat, amount) :: caps) = Some a ->
  run (words_pattern verb)
      (w1 ++ v ++ w2 ++ y ++ w3 ++ "$"%char :: amount ++ rest) caps k
  = Some a.
Proof.
  intros Hne Hverb [Hn1 Hw1] Hv [Hn2 Hw2] Hy [Hn3 Hw3] Hamount Hstop Hk.
  assert (Hlen : forall w : str, w <> [] -> (1 <= length w)%nat)
    by (intros [|??] ?; [done|simpl; lia]).
  assert (Hyou : Forall (fun c => is_alpha c = true) (s2l "you"))
    by (by repeat constructor).
  unfold words_pattern. cbn [run].
  apply many_greedy_all; [done|by apply Hlen| |].
  { apply head_not_space_of_alpha;
      [by apply (keyword_nonempty verb)|by apply (keyword_alpha verb)]. }
  rewrite lit_complete by done.
  apply many_greedy_all; [done|by apply Hlen| |].
  { apply head_not_space_of_alpha;
      [by apply (keyword_nonempty (s2l "you"))|by apply (keyword_alpha (s2l "you"))]. }
  rewrite lit_complete by done.
  apply many_greedy_all; [done|by apply Hlen|done|].
  by apply amount_pattern_complete.
Qed.

End WordsPattern.

(** *** The dollar sign *)

Lemma name_char_not_dollar c : name_char c = true -> c <> "$"%char.
Proof. by intros H ->. Qed.

Lemma is_space_not_dollar c : is_space c = true -> c <> "$"%char.
Proof. by intros H ->. Qed.

Lemma is_alpha_not_dollar c : is_alpha c = true -> c <> "$"%char.
Proof. by intros H ->. Qed.

Lemma is_alpha_name_char c : is_alpha c = true -> name_char c = true.
Proof. unfold name_char. by intros ->. Qed.

Lemma is_space_name_char c : is_space c = true -> name_char c = true.
Proof. unfold name_char. intros ->. by rewrite orb_true_r. Qed.

Lemma no_dollar (P : ascii -> Prop) (l : str) :
  Forall P l -> (forall c, P c -> c <> "$"%char) -> "$"%char ∉ l.
Proof.
  intros Hl HP Hin. rewrite Forall_forall in Hl. by apply (HP _ (Hl _ Hin)).
Qed.

Lemma not_elem_of_app3 (c : ascii) (a b : str) : c ∉ a -> c ∉ b -> c ∉ a ++ b.
Proof. rewrite elem_of_app. tauto. Qed.

Lemma first_dollar l1 r1 l2 r2 :
  l1 ++ "$"%char :: r1 = l2 ++ "$"%char :: r2 ->
  "$"%char ∉ l1 -> "$"%char ∉ l2 -> l1 = l2 /\ r1 = r2.
Proof.
  revert l2. induction l1 as [|c l1 IH]; intros [|d l2] Heq H1 H2.
  - by injection Heq as ->.
  - injection Heq as <- _. destruct H2. by left.
  - injection Heq as -> _. destruct H1. by left.
  - injection Heq as -> Heq.
    assert (H1' : "$"%char ∉ l1) by (intros H; apply H1; by right).
    assert (H2' : "$"%char ∉ l2) by (intros H; apply H2; by right).
    by destruct (IH l2 Heq H1' H2') as [-> ->].
Qed.

Lemma only_dollar l1 r1 l2 r2 :
  l1 ++ "$"%char :: r1 = l2 ++ "$"%char :: r2 ->
  "$"%char ∉ l1 -> "$"%char ∉ r1 -> l1 = l2 /\ r1 = r2.
Proof.
  revert l2. induction l1 as [|c l1 IH]; intros [|d l2] Heq H1 H2.
  - by injection Heq as ->.
  - injection Heq as <- ->. destruct H2. rewrite elem_of_app. right. by left.
  - injection Heq as -> _. destruct H1. by left.
  - injection Heq as -> Heq.
    assert (H1' : "$"%char ∉ l1) by (intros H; apply H1; by right).
    by destruct (IH l2 Heq H1' H2) as [-> ->].
Qed.

Lemma spaces_no_dollar w : blank w -> "$"%char ∉ w.
Proof. intros H. apply (no_dollar _ _ H), is_space_not_dollar. Qed.

Lemma keyword_no_dollar kw w :
  keyword kw w -> Forall (fun c => is_alpha c = true) kw -> "$"%char ∉ w.
Proof.
  intros Hk Hkw. apply (no_dollar _ _ (keyword_alpha kw w Hk Hkw)), is_alpha_not_dollar.
Qed.

Lemma payer_no_dollar x : payer_text x -> "$"%char ∉ x.
Proof.
  intros (c & rest & -> & Hc & _ & Hrest) Hin.
  apply elem_of_cons in Hin as [Hin|Hin].
  - by apply (is_alpha_not_dollar c).
  - by apply (no_dollar _ _ Hrest name_char_not_dollar).
Qed.

Lemma words_no_dollar verb w1 v w2 y w3 :
  Forall (fun c => is_alpha c = true) verb ->
  blank w1 -> keyword verb v -> blank w2 -> keyword (s2l "you") y -> blank w3 ->
  "$"%char ∉ w1 ++ v ++ w2 ++ y ++ w3.
Proof.
  intros Hverb H1 Hv H2 Hy H3.
  assert (Hyou : Forall (fun c => is_alpha c = true) (s2l "you"))
    by (by repeat constructor).
  repeat apply not_elem_of_app3; try by apply spaces_no_dollar.
  - by apply (keyword_no_dollar verb).
  - by apply (keyword_no_dollar (s2l "you")).
Qed.

Lemma ends_word_suffix (l x2 : str) : ends_word (l ++ x2) -> x2 <> [] -> ends_word x2.
Proof.
  intros (x0 & d & Heq & Hd) Hne.
  destruct (exists_last Hne) as (x2' & e & ->).
  rewrite app_assoc in Heq. apply app_inj_tail in Heq as [_ ->].
  by exists x2', d.
Qed.

Lemma ends_word_not_blank x : ends_word x -> blank x -> False.
Proof.
  intros (x0 & d & -> & Hd) Hb. apply Forall_app in Hb as [_ Hb].
  apply Forall_cons in Hb as [Hb _]. congruence.
Qed.

(** *** Group 1 and the whole pattern *)

Lemma payment_pattern_complete {A} verb payer w1 v w2 y w3 amount rest caps
    (k : str -> captures -> option A) a :
  verb <> [] -> Forall (fun c => is_alpha c = true) verb ->
  payer_text payer -> ends_word payer ->
  spaces w1 -> keyword verb v -> spaces w2 -> keyword (s2l "you") y ->
  spaces w3 -> decimal_text amount -> amount_stops rest ->
  k rest ((2%nat, amount) :: (1%nat, payer) :: caps) = Some a ->
  run (payment_pattern verb)
      (payer ++ w1 ++ v ++ w2 ++ y ++ w3 ++ "$"%char :: amount ++ rest) caps k
  = Some a.
Proof.
  intros Hne Hverb Hpayer Hend Hw1 Hv Hw2 Hy Hw3 Hamount Hstop Hk.
  assert (Hyou : Forall (fun c => is_alpha c = true) (s2l "you"))
    by (by repeat constructor).
  destruct Hpayer as (c & x & -> & Hc & Hxne & Hx).
  set (t := w1 ++ v ++ w2 ++ y ++ w3 ++ "$"%char :: amount ++ rest).
  rewrite payment_pattern_words.
  change (run (?r1 >>> ?r2) ?s caps k)
    with (run r1 s caps (fun s' caps' => run r2 s' caps' k)).
  cbn [run app]. rewrite Hc.
  apply many_lazy_first; [done|destruct x; [done|simpl; lia]| |].
  - change (c :: x ++ t) with ((c :: x) ++ t). rewrite consumed_app.
    by apply words_pattern_complete.
  - intros x1 x2 -> Hl1 Hx2.
    destruct (run (words_pattern verb) (x2 ++ t) _ k) as [a'|] eqn:E; [|done].
    exfalso.
    apply words_pattern_sound in E
      as (w1' & v' & w2' & y' & w3' & amount' & rest' & Heq
          & [_ Hw1'] & Hv' & [_ Hw2'] & Hy' & [_ Hw3'] & _ & _).
    destruct Hw1 as [_ Hb1], Hw2 as [_ Hb2], Hw3 as [_ Hb3].
    assert (Hfront : (x2 ++ w1 ++ v ++ w2 ++ y ++ w3) ++ "$"%char :: amount ++ rest
                     = (w1' ++ v' ++ w2' ++ y' ++ w3') ++ "$"%char :: amount' ++ rest').
    { rewrite <- !app_assoc. by rewrite <- Heq. }
    apply first_dollar in Hfront as [Hfront _].
    + change (x2 ++ w1 ++ v ++ w2 ++ y ++ w3)
        with (x2 ++ (w1 ++ v ++ w2 ++ y ++ w3)) in Hfront.
      rewrite (app_assoc x2 w1) in Hfront.
      change (w1' ++ v' ++ w2' ++ y' ++ w3')
        with ([] ++ w1' ++ v' ++ w2' ++ y' ++ w3') in Hfront.
      rewrite (app_assoc [] w1') in Hfront.
      apply layout_align in Hfront as [Hs _]; try done.
      * cbn [app] in Hs.
        assert (Hx2e : ends_word x2).
        { apply (ends_word_suffix (c :: x1)); [exact Hend|done]. }
        apply (ends_word_not_blank x2 Hx2e).
        rewrite <- Hs in Hw1'. by apply Forall_app in Hw1' as [? _].
      * by apply (keyword_ends_word verb).
      * by apply (keyword_ends_word verb).
      * by rewrite (keyword_length _ _ Hv), (keyword_length _ _ Hv').
      * by apply (keyword_ends_word (s2l "you")).
      * by apply (keyword_ends_word (s2l "you")).
      * by rewrite (keyword_length _ _ Hy), (keyword_length _ _ Hy').
    + apply not_elem_of_app3; [|by apply (words_no_dollar verb)].
      apply (no_dollar (fun c => name_char c = true)); [|apply name_char_not_dollar].
      by apply Forall_app in Hx as [_ ?].
    + by apply (words_no_dollar verb).
Qed.

(** *** [re.search] on a payment line *)

Lemma search_here r s caps :
  run r s [] (fun _ c => Some c) = Some caps -> search r s = Some caps.
Proof. intros H. destruct s; cbn [search]; by rewrite H. Qed.

Lemma alpha_paid : Forall (fun c => is_alpha c = true) (s2l "paid").
Proof. by repeat constructor. Qed.

Lemma alpha_sent : Forall (fun c => is_alpha c = true) (s2l "sent").
Proof. by repeat constructor. Qed.

Lemma alpha_you : Forall (fun c => is_alpha c = true) (s2l "you").
Proof. by repeat constructor. Qed.

Lemma search_paid_line payer w1 v w2 y w3 amount rest :
  payer_text payer -> ends_word payer ->
  spaces w1 -> keyword (s2l "paid") v -> spaces w2 -> keyword (s2l "you") y ->
  spaces w3 -> decimal_text amount -> amount_stops rest ->
  search paid_pattern
    (payer ++ w1 ++ v ++ w2 ++ y ++ w3 ++ "$"%char :: amount ++ rest)
  = Some [(2%nat, amount); (1%nat, payer)].
Proof.
  intros. apply search_here. rewrite paid_pattern_eq.
  apply payment_pattern_complete; try done. apply alpha_paid.
Qed.

Lemma decimal_no_dollar amount : decimal_text amount -> "$"%char ∉ amount.
Proof.
  intros (d1 & d2 & _ & Hd1 & Hd2 & Hshape).
  assert (Hd : forall d : str, Forall (fun c => is_digit c = true) d -> "$"%char ∉ d).
  { intros d Hdig. apply (no_dollar _ _ Hdig). by intros c H ->. }
  destruct Hshape as [->| ->]; [by apply Hd|].
  apply not_elem_of_app3; [by apply Hd|].
  intros Hin. apply elem_of_cons in Hin as [Hin|Hin]; [done|]. by apply (Hd d2).
Qed.

(** A layout of the whole line around its only dollar sign determines
    the verb: a line laid out with one verb has no match of the pattern
    of another verb anywhere. *)
Lemma search_other_verb verb verb' front payer w1 v w2 y w3 amount rest :
  Forall (fun c => is_alpha c = true) verb -> verb <> [] ->
  Forall (fun c => is_alpha c = true) verb' -> verb' <> [] ->
  length verb = length verb' -> lower verb <> lower verb' ->
  "$"%char ∉ front -> payer_text payer ->
  spaces w1 -> keyword verb v -> spaces w2 -> keyword (s2l "you") y ->
  spaces w3 -> decimal_text amount -> "$"%char ∉ rest ->
  forall pre s',
    front ++ payer ++ w1 ++ v ++ w2 ++ y ++ w3 ++ "$"%char :: amount ++ rest
    = pre ++ s' ->
    run (payment_pattern verb') s' [] (fun _ c => Some c) = None.
Proof.
  intros Hverb Hne Hverb' Hne' Hlen Hdiff Hfront Hpayer [_ Hw1] Hv [_ Hw2] Hy [_ Hw3]
    Hamount Hrest pre s' Heq.
  destruct (run (payment_pattern verb') s' [] _) as [caps|] eqn:E; [|done].
  exfalso.
  apply payment_pattern_sound in E as (payer' & amount' & rest' & Hlay & _).
  destruct Hlay as (w1' & v' & w2' & y' & w3' & -> & Hpayer' & [_ Hw1'] & Hv'
                    & [_ Hw2'] & Hy' & [_ Hw3'] & _).
  assert (Hboth :
    ((front ++ payer ++ w1) ++ v ++ w2 ++ y ++ w3) ++ "$"%char :: amount ++ rest
    = ((pre ++ payer' ++ w1') ++ v' ++ w2' ++ y' ++ w3')
      ++ "$"%char :: amount' ++ rest').
  { rewrite <- !app_assoc. exact Heq. }
  apply only_dollar in Hboth as [Hboth _].
  - apply layout_align in Hboth as [_ Hvv]; try done.
    + subst v'. apply Hdiff. unfold keyword in Hv, Hv'. congruence.
    + by apply (keyword_ends_word verb).
    + by apply (keyword_ends_word verb').
    + by rewrite (keyword_length _ _ Hv), (keyword_length _ _ Hv').
    + by apply (keyword_ends_word (s2l "you")); [|done|apply alpha_you].
    + by apply (keyword_ends_word (s2l "you")); [|done|apply alpha_you].
    + by rewrite (keyword_length _ _ Hy), (keyword_length _ _ Hy').
  - repeat apply not_elem_of_app3; try done; try (by apply spaces_no_dollar).
    + by apply payer_no_dollar.
    + by apply (keyword_no_dollar verb).
    + by apply (keyword_no_dollar (s2l "you")); [|apply alpha_you].
  - apply not_elem_of_app3; [by apply decimal_no_dollar|done].
Qed.

Lemma search_none r s :
  (forall pre s', s = pre ++ s' -> run r s' [] (fun _ c => Some c) = None) ->
  search r s = None.
Proof.
  intros H. destruct (search r s) as [caps|] eqn:E; [|done].
  apply search_sound in E as (pre & s' & -> & E). by rewrite (H pre s') in E.
Qed.

Lemma bofa_not_a_payer payer w1 v more v5 rest5 verb :
  payer_text payer -> spaces w1 -> keyword verb v ->
  Forall (fun c => is_alpha c = true) verb -> length verb = 4%nat ->
  payer ++ w1 ++ v ++ more = v5 ++ rest5 ->
  keyword (s2l "BofA:") v5 -> False.
Proof.
  intros (c & x & -> & Hc & Hxne & Hx) [Hn1 Hw1] Hv Hverb Hlen Heq Hb.
  assert (Hchars : Forall (fun c => name_char c = true) ((c :: x) ++ w1 ++ v)).
  { apply Forall_app. split; [constructor; [by apply is_alpha_name_char|done]|].
    apply Forall_app. split.
    - eapply Forall_impl; [exact Hw1|]. apply is_space_name_char.
    - eapply Forall_impl; [exact (keyword_alpha verb v Hv Hverb)|].
      apply is_alpha_name_char. }
  assert (Hlong : (5 <= length ((c :: x) ++ w1 ++ v))%nat).
  { rewrite !length_app, (keyword_length _ _ Hv), Hlen.
    destruct x; [done|]. destruct w1; [done|]. simpl. lia. }
  assert (Hv5 : length v5 = 5%nat) by (by rewrite (keyword_length _ _ Hb)).
  assert (Htake : v5 = take 5 ((c :: x) ++ w1 ++ v)).
  { rewrite <- (take_app_le _ more) by done.
    rewrite <- !app_assoc, Heq. rewrite take_app_length'; done. }
  assert (Hcolon : ":"%char ∈ v5).
  { destruct v5 as [|c1 [|c2 [|c3 [|c4 [|c5 [|]]]]]]; try done.
    unfold keyword in Hb. injection Hb as _ _ _ _ H5.
    assert (H5' : lower_char c5 = ":"%char) by exact H5.
    assert (c5 = ":"%char) as ->.
    { rewrite <- H5'. symmetry. apply lower_char_not_lower. by rewrite H5'. }
    do 4 right. by left. }
  rewrite Htake in Hcolon. apply elem_of_take in Hcolon as (i & Hi & _).
  rewrite Forall_forall in Hchars.
  by pose proof (Hchars _ (list_elem_of_lookup_2 _ _ _ Hi)).
Qed.

Lemma search_sent_line pre payer w1 v w2 y w3 amount rest :
  bofa_prefix pre -> payer_text payer -> ends_word payer ->
  spaces w1 -> keyword (s2l "sent") v -> spaces w2 -> keyword (s2l "you") y ->
  spaces w3 -> decimal_text amount -> amount_stops rest ->
  search sent_pattern
    (pre ++ payer ++ w1 ++ v ++ w2 ++ y ++ w3 ++ "$"%char :: amount ++ rest)
  = Some [(2%nat, amount); (1%nat, payer)].
Proof.
  intros Hpre Hpayer Hend Hw1 Hv Hw2 Hy Hw3 Hamount Hstop.
  apply search_here. rewrite sent_pattern_eq.
  change (run (?r1 >>> ?r2) ?s [] ?k)
    with (run r1 s [] (fun s'' caps' => run r2 s'' caps' k)).
  assert (Hcore :
    run (payment_pattern (s2l "sent"))
      (payer ++ w1 ++ v ++ w2 ++ y ++ w3 ++ "$"%char :: amount ++ rest) []
      (fun _ c => Some c)
    = Some [(2%nat, amount); (1%nat, payer)]).
  { apply payment_pattern_complete; try done. apply alpha_sent. }
  cbn [run]. destruct Hpre as [->|(b & w0 & -> & Hb & [Hn0 Hw0])].
  - cbn [app].
    destruct (lit (s2l "BofA:") _ _) as [a'|] eqn:E; [|exact Hcore].
    exfalso. apply lit_sound in E as (v5 & rest5 & Heq & Hb & _).
    by apply (bofa_not_a_payer payer w1 v _ v5 rest5 (s2l "sent")
                Hpayer Hw1 Hv alpha_sent eq_refl Heq).
  - rewrite <- app_assoc, lit_complete by done.
    rewrite (many_greedy_all is_space 1 w0 _ _ [(2%nat, amount); (1%nat, payer)]);
      [done|done|destruct w0; [done|simpl; lia]| |exact Hcore].
    destruct Hpayer as (c & x & -> & Hc & _). cbn [app].
    by apply is_alpha_not_space.
Qed.

(** ** Payment lines are credited to the payer *)

Lemma parse_line_of_stripped payments raw line :
  strip raw = line -> line <> [] ->
  parse_line payments raw
  = if is_header line then payments
    else match search paid_pattern line with
         | Some m => record_payment payments m
         | None =>
             match search sent_pattern line with
             | Some m => record_payment payments m
             | None => payments
             end
         end.
Proof.
  intros <- Hne. unfold parse_line.
  destruct (strip raw) as [|c l] eqn:E; [congruence|reflexivity].
Qed.

Lemma startswith_app kw b : startswith (kw ++ b) kw = true.
Proof.
  induction kw as [|c kw IH]; [by destruct b|]. cbn [app startswith].
  by rewrite bool_decide_eq_true_2.
Qed.

Lemma str_in_app kw a b : str_in kw (a ++ kw ++ b) = true.
Proof.
  induction a as [|c a IH].
  - cbn [app]. destruct (kw ++ b) eqn:E; cbn [str_in]; rewrite <- E;
      by rewrite startswith_app.
  - cbn [app str_in]. rewrite IH. apply orb_true_r.
Qed.

Lemma str_in_keyword kw a v b :
  keyword kw v -> str_in (lower kw) (lower (a ++ v ++ b)) = true.
Proof.
  unfold keyword, lower. intros <-. rewrite !map_app. apply str_in_app.
Qed.

Lemma is_header_with_verb line :
  str_in (s2l "paid") (lower line) = true \/ str_in (s2l "sent") (lower line) = true ->
  is_header line = false.
Proof.
  unfold is_header. intros [-> | ->]; destruct (endswith_char line ":"); simpl;
    try done; by destruct (str_in _ _).
Qed.

Lemma is_digit_not_space c : is_digit c = true -> is_space c = false.
Proof. by destruct c as [[] [] [] [] [] [] [] []]. Qed.

Lemma digits_end_word d :
  d <> [] -> Forall (fun c => is_digit c = true) d -> ends_word d.
Proof.
  intros Hne Hd. destruct (exists_last Hne) as (d0 & c & ->).
  exists d0, c. split; [done|].
  apply Forall_app in Hd as [_ Hc]. apply Forall_cons in Hc as [Hc _].
  by apply is_digit_not_space.
Qed.

Lemma decimal_ends_word amount : decimal_text amount -> ends_word amount.
Proof.
  intros (d1 & d2 & Hne & Hd1 & Hd2 & [->| ->]); [by apply digits_end_word|].
  apply ends_word_app. destruct d2 as [|c d2].
  - by exists [], "."%char.
  - change ("."%char :: c :: d2) with (["."%char] ++ c :: d2).
    apply ends_word_app. by apply digits_end_word.
Qed.

Lemma strip_line lead body rest :
  blank lead -> lstrip body = body -> ends_word body ->
  strip (lead ++ body ++ rest) = body ++ rstrip rest.
Proof.
  intros Hlead Hhead (b0 & d & -> & Hd). unfold strip.
  rewrite lstrip_blank_app by done.
  assert (Hl : lstrip ((b0 ++ [d]) ++ rest) = (b0 ++ [d]) ++ rest).
  { destruct b0 as [|c b0]; cbn [app] in *.
    - by apply lstrip_not_space.
    - apply lstrip_not_space. by apply lstrip_fixed_head in Hhead. }
  rewrite Hl, <- !app_assoc. cbn [app].
  by rewrite rstrip_app_not_space.
Qed.

Lemma rstrip_amount_stops rest : amount_stops rest -> amount_stops (rstrip rest).
Proof.
  destruct rest as [|c rest]; [done|]. intros H.
  rewrite rstrip_cons. destruct (rstrip rest); [by destruct (is_space c)|done].
Qed.

Lemma rstrip_no_dollar rest : "$"%char ∉ rest -> "$"%char ∉ rstrip rest.
Proof. intros H Hin. by apply H, rstrip_subseteq. Qed.

Lemma payer_strip payer : payer_text payer -> ends_word payer -> strip payer = payer.
Proof.
  intros (c & x & -> & Hc & _) Hend. unfold strip.
  rewrite lstrip_not_space by (by apply is_alpha_not_space).
  rewrite <- (app_nil_r (c :: x)) at 1.
  apply rstrip_word_blank; [done|constructor].
Qed.

Lemma record_payment_credit payments payer amount :
  payer_text payer -> ends_word payer ->
  record_payment payments [(2%nat, amount); (1%nat, payer)]
  = credit payments payer amount.
Proof.
  intros Hp He. unfold record_payment, credit.
  change (group [(2%nat, amount); (1%nat, payer)] 1) with payer.
  change (group [(2%nat, amount); (1%nat, payer)] 2) with amount.
  rewrite payer_strip by done.
  destruct (Dict.get payments (normalize_name payer)); cbn [default]; [done|].
  by rewrite add_zero_l by apply of_decimal_ok.
Qed.

Lemma keyword_no_dollar_gen kw w :
  keyword kw w -> "$"%char ∉ lower kw -> "$"%char ∉ w.
Proof.
  unfold keyword. intros <- Hno Hin. apply Hno.
  unfold lower. apply list_elem_of_fmap. by exists "$"%char.
Qed.

Lemma bofa_prefix_no_dollar pre : bofa_prefix pre -> "$"%char ∉ pre.
Proof.
  intros [->|(b & w0 & -> & Hb & [_ Hw0])]; [by intros ?%elem_of_nil|].
  apply not_elem_of_app3; [|by apply spaces_no_dollar].
  apply (keyword_no_dollar_gen _ _ Hb). vm_compute.
  intros H. repeat (apply elem_of_cons in H as [H|H]; [discriminate H|]).
  by apply elem_of_nil in H.
Qed.

Lemma bofa_prefix_lstrip pre payer tail :
  bofa_prefix pre -> payer_text payer ->
  lstrip (pre ++ payer ++ tail) = pre ++ payer ++ tail.
Proof.
  intros [->|(b & w0 & -> & Hb & _)] (c & x & -> & Hc & _).
  - cbn [app]. apply lstrip_not_space. by apply is_alpha_not_space.
  - destruct b as [|c1 b]; [done|]. cbn [app].
    apply lstrip_not_space. unfold keyword in Hb. injection Hb as H1 _.
    by rewrite <- is_space_lower_char, H1.
Qed.

Lemma payment_line_stripped verb pre raw payer amount :
  bofa_prefix pre -> payment_line verb pre raw payer amount ->
  exists w1 v w2 y w3 rest,
    strip raw = pre ++ payer ++ w1 ++ v ++ w2 ++ y ++ w3
                ++ "$"%char :: amount ++ rest /\
    payer_text payer /\ ends_word payer /\
    spaces w1 /\ keyword verb v /\ spaces w2 /\ keyword (s2l "you") y /\
    spaces w3 /\ decimal_text amount /\ amount_stops rest /\ "$"%char ∉ rest.
Proof.
  intros Hpre (lead & w1 & v & w2 & y & w3 & rest & -> & Hlead & Hp & He & Hw1
               & Hv & Hw2 & Hy & Hw3 & Ha & Hs & Hr).
  exists w1, v, w2, y, w3, (rstrip rest).
  split; [|repeat split; try done; try (by apply Hw1); try (by apply Hw2);
           try (by apply Hw3);
           [by apply rstrip_amount_stops|by apply rstrip_no_dollar]].
  set (body := pre ++ payer ++ w1 ++ v ++ w2 ++ y ++ w3 ++ "$"%char :: amount).
  assert (Hbody : pre ++ payer ++ w1 ++ v ++ w2 ++ y ++ w3
                  ++ "$"%char :: amount ++ rest = body ++ rest).
  { unfold body. by rewrite <- !app_assoc. }
  assert (Hbody' : pre ++ payer ++ w1 ++ v ++ w2 ++ y ++ w3
                   ++ "$"%char :: amount ++ rstrip rest = body ++ rstrip rest).
  { unfold body. by rewrite <- !app_assoc. }
  rewrite Hbody, Hbody'. apply strip_line; [done| |].
  - unfold body. by apply bofa_prefix_lstrip.
  - unfold body.
    change ("$"%char :: amount) with (["$"%char] ++ amount).
    rewrite !app_assoc. by apply ends_word_app, decimal_ends_word.
Qed.

Lemma parse_line_credit verb payments pre raw payer amount :
  (verb = s2l "paid" /\ pre = []) \/ (verb = s2l "sent" /\ bofa_prefix pre) ->
  payment_line verb pre raw payer amount ->
  parse_line payments raw = credit payments payer amount.
Proof.
  intros [[-> ->]|[-> Hpre]] Hline.
  - destruct (payment_line_stripped _ [] raw payer amount (or_introl eq_refl) Hline)
      as (w1 & v & w2 & y & w3 & rest & Hstrip & Hp & He & Hw1 & Hv & Hw2 & Hy
          & Hw3 & Ha & Hs & Hr).
    cbn [app] in Hstrip.
    rewrite (parse_line_of_stripped payments raw _ Hstrip).
    + rewrite is_header_with_verb.
      * rewrite search_paid_line by done. by apply record_payment_credit.
      * left. rewrite app_assoc. apply (str_in_keyword (s2l "paid")). done.
    + destruct Hp as (c & x & -> & _). done.
  - destruct (payment_line_stripped _ pre raw payer amount Hpre Hline)
      as (w1 & v & w2 & y & w3 & rest & Hstrip & Hp & He & Hw1 & Hv & Hw2 & Hy
          & Hw3 & Ha & Hs & Hr).
    rewrite (parse_line_of_stripped payments raw _ Hstrip).
    + rewrite is_header_with_verb.
      * rewrite (search_none paid_pattern).
        -- rewrite search_sent_line by done. by apply record_payment_credit.
        -- rewrite paid_pattern_eq.
           apply (search_other_verb (s2l "sent") (s2l "paid")); try done;
             [apply alpha_sent|apply alpha_paid|by apply bofa_prefix_no_dollar].
      * right.
        replace (pre ++ payer ++ w1 ++ v ++ w2 ++ y ++ w3 ++ "$"%char :: amount ++ rest)
          with ((pre ++ payer ++ w1) ++ v ++ w2 ++ y ++ w3 ++ "$"%char :: amount ++ rest)
          by (by rewrite <- !app_assoc).
        apply (str_in_keyword (s2l "sent")). done.
    + destruct Hp as (c & x & -> & _). by destruct pre.
Qed.

(** A line that reads, after optional whitespace, payer paid you $amount
    (the two words in any case, any run of whitespace between the
    parts), with a payer of at least two characters, credits the amount
    to the normalized payer: it is added to what the payer has paid so
    far, and a payer that is absent starts from 0.0. *)
Theorem paid_line_is_credited (payments : ledger) (raw payer amount : str) :
  payment_line (s2l "paid") [] raw payer amount ->
  parse_line payments raw = credit payments payer amount.
Proof. intros Hline. apply (parse_line_credit (s2l "paid") payments [] raw); auto. Qed.

(** The same for a line that reads payer sent you $amount, with or
    without BofA: and whitespace before the payer: the paid pattern,
    tried first, finds nothing in it, and the sent pattern credits the
    payer. *)
Theorem sent_line_is_credited (payments : ledger) (pre raw payer amount : str) :
  bofa_prefix pre ->
  payment_line (s2l "sent") pre raw payer amount ->
  parse_line payments raw = credit payments payer amount.
Proof.
  intros Hpre Hline. apply (parse_line_credit (s2l "sent") payments pre raw); auto.
Qed.

Ltac not_in_text :=
  let H := fresh in
  vm_compute; intros H;
  repeat (apply elem_of_cons in H as [H|H]; [discriminate H|]);
  by apply elem_of_nil in H.

Lemma paid_line_witness :
  parse_line [] (s2l " John Smith Paid  you $5.00 thanks")
  = credit [] (s2l "John Smith") (s2l "5.00").
Proof.
  apply paid_line_is_credited.
  exists (s2l " "), (s2l " "), (s2l "Paid"), (s2l "  "), (s2l "you"), (s2l " "),
    (s2l " thanks").
  split; [reflexivity|].
  split; [by repeat constructor|].
  split; [exists "J"%char, (s2l "ohn Smith"); by repeat constructor|].
  split; [by exists (s2l "John Smit"), "h"%char|].
  split; [split; [done|by repeat constructor]|].
  split; [reflexivity|].
  split; [split; [done|by repeat constructor]|].
  split; [reflexivity|].
  split; [split; [done|by repeat constructor]|].
  split; [exists (s2l "5"), (s2l "00");
          repeat split; try done; try (by repeat constructor); by right|].
  split; [by split|not_in_text].
Defined.

Lemma sent_line_witness :
  parse_line [(s2l "mary ann", Fin (5 * unit))]
    (s2l "BofA: Mary Ann sent you $10.")
  = credit [(s2l "mary ann", Fin (5 * unit))] (s2l "Mary Ann") (s2l "10.").
Proof.
  apply (sent_line_is_credited _ (s2l "BofA: ")).
  - right. exists (s2l "BofA:"), (s2l " ").
    split; [reflexivity|]. split; [reflexivity|].
    split; [done|by repeat constructor].
  - exists [], (s2l " "), (s2l "sent"), (s2l " "), (s2l "you"), (s2l " "), [].
    split; [reflexivity|].
    split; [constructor|].
    split; [exists "M"%char, (s2l "ary Ann"); by repeat constructor|].
    split; [by exists (s2l "Mary An"), "n"%char|].
    split; [split; [done|by repeat constructor]|].
    split; [reflexivity|].
    split; [split; [done|by repeat constructor]|].
    split; [reflexivity|].
    split; [split; [done|by repeat constructor]|].
    split; [exists (s2l "10"), [];
            repeat split; try done; try (by repeat constructor); by right|].
    split; [done|by intros ?%elem_of_nil].
Defined.

(** ** A payer of one letter *)

Lemma short_front_has_no_payer verb verb' front v w2 y w3 rest
    pre payer rest0 amount rest' :
  (length front < 3)%nat -> "$"%char ∉ front -> "$"%char ∉ rest ->
  Forall (fun c => is_alpha c = true) verb -> verb <> [] ->
  Forall (fun c => is_alpha c = true) verb' -> verb' <> [] ->
  length verb = length verb' ->
  keyword verb v -> spaces w2 -> keyword (s2l "you") y -> spaces w3 ->
  front ++ v ++ w2 ++ y ++ w3 ++ "$"%char :: rest = pre ++ payer ++ rest0 ->
  payment_layout verb' (payer ++ rest0) payer amount rest' -> False.
Proof.
  intros Hshort Hfront Hrest Hverb Hne Hverb' Hne' Hlen Hv [_ Hw2] Hy [_ Hw3] Heq
    (w1' & v' & w2' & y' & w3' & Hlay & Hpayer & [Hn1 Hw1'] & Hv' & [_ Hw2']
     & Hy' & [_ Hw3'] & _).
  apply app_inv_head in Hlay. subst rest0.
  assert (Hboth :
    (front ++ v ++ w2 ++ y ++ w3) ++ "$"%char :: rest
    = ((pre ++ payer ++ w1') ++ v' ++ w2' ++ y' ++ w3')
      ++ "$"%char :: amount ++ rest').
  { rewrite <- !app_assoc. exact Heq. }
  apply only_dollar in Hboth as [Hboth _]; [|..|done].
  - apply layout_align in Hboth as [Hs _]; try done.
    + apply (f_equal length) in Hs. rewrite !length_app in Hs.
      destruct Hpayer as (c & x & -> & _ & Hx & _).
      destruct x; [done|]. destruct w1'; [done|]. simpl in Hs. lia.
    + by apply (keyword_ends_word verb).
    + by apply (keyword_ends_word verb').
    + by rewrite (keyword_length _ _ Hv), (keyword_length _ _ Hv').
    + by apply (keyword_ends_word (s2l "you")); [|done|apply alpha_you].
    + by apply (keyword_ends_word (s2l "you")); [|done|apply alpha_you].
    + by rewrite (keyword_length _ _ Hy), (keyword_length _ _ Hy').
  - repeat apply not_elem_of_app3; try done; try (by apply spaces_no_dollar).
    + by apply (keyword_no_dollar verb).
    + by apply (keyword_no_dollar (s2l "you")); [|apply alpha_you].
Qed.

(** A payer of a single letter, separated from the verb by a single
    whitespace character, is not recorded: group 1 needs two characters
    before the whitespace that the pattern requires after it.  The line
    is silently ignored. *)
Theorem one_letter_payer_is_not_recorded
    (payments : ledger) (verb lead v w2 y w3 rest : str) (c w : ascii) :
  verb = s2l "paid" \/ verb = s2l "sent" ->
  blank lead -> is_alpha c = true -> is_space w = true ->
  keyword verb v -> spaces w2 -> keyword (s2l "you") y -> spaces w3 ->
  "$"%char ∉ rest ->
  parse_line payments (lead ++ c :: w :: v ++ w2 ++ y ++ w3 ++ "$"%char :: rest)
  = payments.
Proof.
  intros Hverb Hlead Hc Hw Hv Hw2 Hy Hw3 Hrest.
  assert (Halpha : Forall (fun c => is_alpha c = true) verb /\ verb <> []
                   /\ length verb = 4%nat).
  { destruct Hverb as [->| ->]; by repeat split; repeat constructor. }
  destruct Halpha as (Halpha & Hne & Hlen).
  set (body := c :: w :: v ++ w2 ++ y ++ w3 ++ ["$"%char]).
  assert (Hstrip : strip (lead ++ c :: w :: v ++ w2 ++ y ++ w3 ++ "$"%char :: rest)
                   = [c; w] ++ v ++ w2 ++ y ++ w3 ++ "$"%char :: rstrip rest).
  { replace (c :: w :: v ++ w2 ++ y ++ w3 ++ "$"%char :: rest)
      with (body ++ rest) by (unfold body; cbn [app]; by rewrite <- !app_assoc).
    replace ([c; w] ++ v ++ w2 ++ y ++ w3 ++ "$"%char :: rstrip rest)
      with (body ++ rstrip rest) by (unfold body; cbn [app]; by rewrite <- !app_assoc).
    apply strip_line; [done| |].
    - apply lstrip_not_space. by apply is_alpha_not_space.
    - exists (c :: w :: v ++ w2 ++ y ++ w3), "$"%char. split; [|done].
      unfold body. cbn [app]. by rewrite <- !app_assoc. }
  rewrite (parse_line_of_stripped payments _ _ Hstrip) by done.
  rewrite is_header_with_verb.
  2:{ destruct Hverb as [->| ->]; [left|right].
      - by apply (str_in_keyword (s2l "paid") [c; w] v).
      - by apply (str_in_keyword (s2l "sent") [c; w] v). }
  assert (Hfront : "$"%char ∉ [c; w]).
  { intros H. apply elem_of_cons in H as [H|H]; [by subst c|].
    apply elem_of_cons in H as [H|H]; [by subst w|]. by apply elem_of_nil in H. }
  pose proof (rstrip_no_dollar rest Hrest) as Hrest'.
  destruct (search paid_pattern _) as [m|] eqn:E1.
  { exfalso. apply search_paid_sound in E1
      as (pre & payer & amount & rest0 & Heq & (rest' & Hlay) & _).
    apply (short_front_has_no_payer verb (s2l "paid") [c; w] v w2 y w3
             (rstrip rest) pre payer rest0 amount rest');
      first [assumption|simpl; lia|apply alpha_paid|by rewrite Hlen|done]. }
  destruct (search sent_pattern _) as [m|] eqn:E2; [|done].
  exfalso. apply search_sent_sound in E2
    as (pre & payer & amount & rest0 & Heq & (rest' & Hlay) & _).
  apply (short_front_has_no_payer verb (s2l "sent") [c; w] v w2 y w3
           (rstrip rest) pre payer rest0 amount rest');
    first [assumption|simpl; lia|apply alpha_sent|by rewrite Hlen|done].
Qed.

Lemma one_letter_payer_witness :
  parse_line [] ([] ++ "J"%char :: " "%char :: s2l "paid" ++ s2l " " ++ s2l "you"
                    ++ s2l " " ++ "$"%char :: s2l "5.00")
  = [].
Proof.
  apply (one_letter_payer_is_not_recorded [] (s2l "paid")).
  - by left.
  - constructor.
  - reflexivity.
  - reflexivity.
  - reflexivity.
  - split; [done|by repeat constructor].
  - reflexivity.
  - split; [done|by repeat constructor].
  - not_in_text.
Defined.

(** ** The exact test of the second pass is subsumed by the scan *)

Lemma name_matches_refl a : name_matches a a = true.
Proof. unfold name_matches. by rewrite str_in_refl. Qed.

Lemma any_payment_matches_key payments key :
  key ∈ payments.*1 -> any_payment_matches payments key = true.
Proof.
  induction payments as [|[name a] payments IH]; [by intros ?%elem_of_nil|].
  rewrite fmap_cons. cbn [fst any_payment_matches].
  intros [->|Hin]%elem_of_cons; [by rewrite name_matches_refl|].
  destruct (name_matches key name); [done|by apply IH].
Qed.

(** A name that has an entry of its own in the ledger passes the fuzzy
    scan as well (every name matches itself), so the outcome of lines
    166-180 is that of the scan alone. *)
Theorem has_payment_is_the_fuzzy_scan (payments : ledger) (name : str) :
  has_payment payments name = any_payment_matches payments name.
Proof.
  unfold has_payment. destruct (Dict.contains payments name) eqn:E; [|done].
  symmetry. by apply any_payment_matches_key, dict_contains_keys.
Qed.

(** ** Marks and tentative entries are never taken back *)

Lemma mark_plus_ones_grows accounted plus_ones indices accounted' :
  mark_plus_ones accounted plus_ones indices = Ok accounted' ->
  accounted ⊆ accounted'.
Proof.
  revert accounted. induction indices as [|i indices IH]; intros accounted; simpl.
  - by intros [= <-].
  - destruct (plus_ones !! i); [|done]. intros H%IH. set_solver.
Qed.

Lemma process_group_grows g payments t group t' :
  process_group g payments t group = Ok t' ->
  accounted_for t ⊆ accounted_for t' /\ unpaid t `prefix_of` unpaid t'.
Proof.
  intros H. split; [|by apply process_group_unpaid_grows in H].
  destruct group as [key plus_ones]. unfold process_group in H.
  destruct (guests_covered_of _) as [covered|e]; cbn [bind] in H; [|done].
  destruct (0 <? covered).
  - destruct (mark_plus_ones _ _ _) as [acc|e] eqn:E; cbn [bind] in H; [|done].
    injection H as <-. cbn [accounted_for].
    apply mark_plus_ones_grows in E. set_solver.
  - cbn [bind] in H. by injection H as <-.
Qed.

(** The loop over the groups only adds: a name once marked
    accounted-for stays marked, and the tentative unpaid list only
    grows at its end. *)
Theorem process_groups_only_adds
    (g : guests) (payments : ledger) (groups : list (str * list str))
    (t t' : tally) :
  process_groups g payments t groups = Ok t' ->
  accounted_for t ⊆ accounted_for t' /\ unpaid t `prefix_of` unpaid t'.
Proof.
  revert t. induction groups as [|group groups IH]; intros t.
  - by intros [= <-].
  - rewrite process_groups_cons.
    destruct (process_group g payments t group) as [t1|e] eqn:E; cbn [bind]; [|done].
    intros [H1 H2]%IH. apply process_group_grows in E as [E1 E2].
    split; [set_solver|by etrans].
Qed.

Lemma process_groups_only_adds_witness :
  accounted_for {| accounted_for := {[s2l "zed"]}; unpaid := [s2l "Zed"] |}
  ⊆ accounted_for {| accounted_for := {[s2l "zed"]};
                     unpaid := [s2l "Zed"; s2l "Al"] |} /\
  unpaid {| accounted_for := {[s2l "zed"]}; unpaid := [s2l "Zed"] |}
  `prefix_of` unpaid {| accounted_for := {[s2l "zed"]};
                        unpaid := [s2l "Zed"; s2l "Al"] |}.
Proof.
  apply (process_groups_only_adds no_guests [] [(s2l "al", [])]).
  vm_compute. reflexivity.
Defined.

(** ** Repeated payers *)

Lemma credit_get payments payer amount :
  Dict.get (credit payments payer amount) (normalize_name payer)
  = Some (add (default (Fin 0) (Dict.get payments (normalize_name payer)))
              (of_decimal amount)).
Proof. unfold credit. rewrite dict_get_set. by rewrite decide_True. Qed.

(** Two payment lines of one payer (the same name up to case and
    surrounding whitespace, paid or sent) leave a single ledger entry
    that holds the float sum of the two amounts. *)
Theorem repeated_payer_amounts_are_summed
    (verb1 pre1 raw1 payer1 amount1 verb2 pre2 raw2 payer2 amount2 : str) :
  (verb1 = s2l "paid" /\ pre1 = []) \/ (verb1 = s2l "sent" /\ bofa_prefix pre1) ->
  (verb2 = s2l "paid" /\ pre2 = []) \/ (verb2 = s2l "sent" /\ bofa_prefix pre2) ->
  payment_line verb1 pre1 raw1 payer1 amount1 ->
  payment_line verb2 pre2 raw2 payer2 amount2 ->
  normalize_name payer1 = normalize_name payer2 ->
  parse_payments [raw1; raw2]
  = [(normalize_name payer1, add (of_decimal amount1) (of_decimal amount2))].
Proof.
  intros Hv1 Hv2 Hl1 Hl2 Hsame. unfold parse_payments. cbn [fold_left].
  rewrite (parse_line_credit verb1 [] pre1 raw1 payer1 amount1) by done.
  rewrite (parse_line_credit verb2 _ pre2 raw2 payer2 amount2) by done.
  unfold credit at 2. cbn [Dict.get default Dict.set].
  rewrite add_zero_l by apply of_decimal_ok.
  unfold credit. rewrite <- Hsame. cbn [Dict.get Dict.set].
  by rewrite bool_decide_eq_true_2.
Qed.

Lemma repeated_payer_witness :
  parse_payments [s2l "Al Ma paid you $5"; s2l "BofA: AL MA sent you $2.50"]
  = [(normalize_name (s2l "Al Ma"), add (of_decimal (s2l "5")) (of_decimal (s2l "2.50")))].
Proof.
  apply (repeated_payer_amounts_are_summed
           (s2l "paid") [] _ (s2l "Al Ma") (s2l "5")
           (s2l "sent") (s2l "BofA: ") _ (s2l "AL MA") (s2l "2.50")).
  - by left.
  - right. split; [done|]. right. exists (s2l "BofA:"), (s2l " ").
    split; [reflexivity|]. split; [reflexivity|].
    split; [done|by repeat constructor].
  - exists [], (s2l " "), (s2l "paid"), (s2l " "), (s2l "you"), (s2l " "), [].
    split; [reflexivity|].
    split; [constructor|].
    split; [exists "A"%char, (s2l "l Ma"); by repeat constructor|].
    split; [by exists (s2l "Al M"), "a"%char|].
    split; [split; [done|by repeat constructor]|].
    split; [reflexivity|].
    split; [split; [done|by repeat constructor]|].
    split; [reflexivity|].
    split; [split; [done|by repeat constructor]|].
    split; [exists (s2l "5"), [];
            repeat split; try done; try (by repeat constructor); by left|].
    split; [done|by intros ?%elem_of_nil].
  - exists [], (s2l " "), (s2l "sent"), (s2l " "), (s2l "you"), (s2l " "), [].
    split; [reflexivity|].
    split; [constructor|].
    split; [exists "A"%char, (s2l "L MA"); by repeat constructor|].
    split; [by exists (s2l "AL M"), "A"%char|].
    split; [split; [done|by repeat constructor]|].
    split; [reflexivity|].
    split; [split; [done|by repeat constructor]|].
    split; [reflexivity|].
    split; [split; [done|by repeat constructor]|].
    split; [exists (s2l "2"), (s2l "50");
            repeat split; try done; try (by repeat constructor); by right|].
    split; [done|by intros ?%elem_of_nil].
  - reflexivity.
Defined.

(** ** A main guest without any payment on record *)






Lemma NoDup_first_occurrences l : NoDup (first_occurrences l).
Proof.
  induction l as [|x l IH]; [constructor|].
  cbn [first_occurrences]. constructor.
  - rewrite list_elem_of_filter. tauto.
  - by apply NoDup_filter.
Qed.

Lemma guest_structure_keys_NoDup wl rows :
  NoDup (guest_structure (read_guests wl rows)).*1.
Proof.
  unfold read_guests. rewrite read_guests_keys_from.
  cbn [no_guests guest_structure fmap list_fmap app].
  apply NoDup_filter, NoDup_first_occurrences.
Qed.



(** ** Where the reported names come from *)

Lemma names_from_rows_insert rows m k r :
  r ∈ rows -> is_going r = true -> names_from_rows rows m ->
  names_from_rows rows (<[k := strip (Name r)]> m).
Proof.
  intros Hr Hg Hm k' v. rewrite lookup_insert_Some.
  intros [[_ <-]|[_ H]]; [by exists r|by apply (Hm k')].
Qed.

Lemma read_row_going wl g r :
  is_going r = true ->
  main_guests (read_row wl g r) = main_guests g \/
  main_guests (read_row wl g r)
  = <[normalize_name (strip (Name r)) := strip (Name r)]> (main_guests g).
Proof.
  unfold is_going, read_row. intros Hg%bool_decide_eq_true.
  rewrite bool_decide_eq_false_2 by tauto.
  destruct (strip (IsPlusOneOf r)); [by right|by left].
Qed.

Lemma read_row_all_guests wl g r :
  is_going r = true ->
  all_guests (read_row wl g r)
  = <[normalize_name (strip (Name r)) := strip (Name r)]> (all_guests g).
Proof.
  unfold is_going, read_row. intros Hg%bool_decide_eq_true.
  rewrite bool_decide_eq_false_2 by tauto.
  by destruct (strip (IsPlusOneOf r)).
Qed.

Lemma read_guests_names_from_rows wl rows all g :
  (forall r, r ∈ rows -> r ∈ all) ->
  names_from_rows all (main_guests g) /\ names_from_rows all (all_guests g) ->
  names_from_rows all (main_guests (fold_left (read_row wl) rows g)) /\
  names_from_rows all (all_guests (fold_left (read_row wl) rows g)).
Proof.
  revert g. induction rows as [|r rows IH]; intros g Hsub [Hm Ha]; [done|].
  cbn [fold_left]. apply IH; [intros r' Hr'; apply Hsub; by right|].
  destruct (is_going r) eqn:Hg.
  - assert (Hr : r ∈ all) by (apply Hsub; by left).
    rewrite read_row_all_guests by done.
    split; [|by apply names_from_rows_insert].
    destruct (read_row_going wl g r Hg) as [-> | ->];
      [done|by apply names_from_rows_insert].
  - by rewrite read_row_not_going.
Qed.

Lemma dict_get_of_elem {V} (d : list (str * V)) k v :
  NoDup d.*1 -> (k, v) ∈ d -> Dict.get d k = Some v.
Proof.
  induction d as [|[j w] d IH]; [by intros _ ?%elem_of_nil|].
  rewrite fmap_cons. cbn [fst Dict.get].
  intros [Hj Hnd]%NoDup_cons [[= -> ->]|Hin]%elem_of_cons.
  - by rewrite bool_decide_eq_true_2.
  - rewrite bool_decide_eq_false_2; [by apply IH|].
    intros ->. apply Hj. apply list_elem_of_fmap. by exists (k, v).
Qed.

Lemma dependents_are_going wl rows key plus_ones p :
  (key, plus_ones) ∈ guest_structure (read_guests wl rows) ->
  p ∈ plus_ones -> going_name rows p.
Proof.
  intros Hin Hp.
  apply dict_get_of_elem in Hin; [|apply guest_structure_keys_NoDup].
  unfold read_guests in Hin. rewrite read_guests_get_from in Hin.
  cbn [no_guests guest_structure Dict.get] in Hin.
  destruct (bool_decide _); [|done]. injection Hin as <-.
  apply list_elem_of_fmap in Hp as (r & -> & Hr).
  apply list_elem_of_In, filter_In in Hr as [Hr Hplus].
  exists r. split; [by apply list_elem_of_In|].
  split; [|done]. by apply is_plus_one_of_group_key in Hplus as (? & _).
Qed.

Lemma process_group_unpaid_origin g payments t key plus_ones t' x :
  process_group g payments t (key, plus_ones) = Ok t' ->
  x ∈ unpaid t' ->
  x ∈ unpaid t \/ x = main_guest_name_of g key \/ x ∈ plus_ones.
Proof.
  unfold process_group.
  destruct (guests_covered_of _) as [covered|e]; cbn [bind]; [|done].
  destruct (if 0 <? covered then _ else _) as [acc|e]; cbn [bind]; [|done].
  intros [= <-]. cbn [unpaid]. rewrite add_unpaid_plus_ones_filter.
  rewrite elem_of_app, list_elem_of_filter.
  intros [Hx|[_ Hx]]; [|by right; right].
  destruct (bool_decide _); [|by left].
  apply elem_of_app in Hx as [Hx|Hx]; [by left|].
  apply list_elem_of_singleton in Hx. right. by left.
Qed.

Lemma process_groups_unpaid_origin g payments groups t t' x :
  process_groups g payments t groups = Ok t' ->
  x ∈ unpaid t' ->
  x ∈ unpaid t \/
  exists key plus_ones,
    (key, plus_ones) ∈ groups /\ (x = main_guest_name_of g key \/ x ∈ plus_ones).
Proof.
  revert t. induction groups as [|[key plus_ones] groups IH]; intros t.
  - intros [= <-] Hx. by left.
  - rewrite process_groups_cons.
    destruct (process_group g payments t _) as [t1|e] eqn:E; cbn [bind]; [|done].
    intros H Hx. destruct (IH _ H Hx) as [Hin|(k & ps & Hk & Hor)].
    + destruct (process_group_unpaid_origin _ _ _ _ _ _ _ E Hin) as [H1|Hor];
        [by left|].
      right. exists key, plus_ones. split; [by left|done].
    + right. exists k, ps. split; [by right|done].
Qed.

(** Every name of DefinitelyUnpaid is the display name of a Going row
    of the table, or the title-cased key of a group whose main guest
    has no Going row (the key was introduced by a plus-one's
    reference). *)
Theorem reported_names_come_from_going_rows
    (whitelist_lines no_pay_lines : list str) (rows : list row)
    (payment_lines : list str) (r : report) (guest : str) :
  main whitelist_lines no_pay_lines rows payment_lines = Ok r ->
  guest ∈ DefinitelyUnpaid r ->
  going_name rows guest \/
  exists key,
    key ∈ (guest_structure (read_guests (read_names whitelist_lines) rows)).*1 /\
    all_guests (read_guests (read_names whitelist_lines) rows) !! key = None /\
    guest = title key.
Proof.
  intros Hmain Hin.
  apply main_Ok_inv in Hmain as (t & Hall & ->). cbn [DefinitelyUnpaid] in Hin.
  rewrite double_check_filter in Hin.
  apply list_elem_of_In, filter_In in Hin as [Hin _]. apply list_elem_of_In in Hin.
  set (g := read_guests (read_names whitelist_lines) rows) in *.
  destruct (process_groups_unpaid_origin _ _ _ _ _ _ Hall Hin)
    as [H0|(key & plus_ones & Hgroup & [-> | Hp])].
  - by apply elem_of_nil in H0.
  - destruct (read_guests_names_from_rows (read_names whitelist_lines) rows rows
                no_guests ltac:(done)) as [Hm Ha].
    { split; intros k v Hk; cbn in Hk; by rewrite lookup_empty in Hk. }
    fold (read_guests (read_names whitelist_lines) rows) in Hm, Ha. fold g in Hm, Ha.
    unfold main_guest_name_of.
    destruct (main_guests g !! key) as [v|] eqn:Em; cbn [default];
      [left; by apply (Hm key)|].
    destruct (all_guests g !! key) as [v|] eqn:Ea; cbn [default];
      [left; by apply (Ha key)|].
    right. exists key. split; [|done].
    apply list_elem_of_fmap. by exists (key, plus_ones).
  - left. by apply (dependents_are_going (read_names whitelist_lines) rows key plus_ones).
Qed.

Lemma reported_names_witness :
  going_name [mk_row "Zed" "Going" "ann lee"] (s2l "Ann Lee") \/
  exists key,
    key ∈ (guest_structure
             (read_guests (read_names []) [mk_row "Zed" "Going" "ann lee"])).*1 /\
    all_guests (read_guests (read_names []) [mk_row "Zed" "Going" "ann lee"]) !! key
    = None /\
    s2l "Ann Lee" = title key.
Proof.
  apply (reported_names_come_from_going_rows [] [] [mk_row "Zed" "Going" "ann lee"] []
           {| Blacklist := [s2l "Zed"];
              DefinitelyUnpaid := [s2l "Ann Lee"; s2l "Zed"] |}).
  - vm_compute. reflexivity.
  - cbn [DefinitelyUnpaid]. by left.
Defined.

(** ** C5: what a payment line adds to the ledger *)

(** C5, amended.  Take a line that reads, after optional whitespace,
    payer paid you $amount, or payer sent you $amount with or without
    BofA: and whitespace before the payer (the words in any case, one
    or more whitespace characters between the parts), where the payer
    has at least two characters, the first a letter, the others
    letters, whitespace or apostrophes, the last not whitespace, the
    amount is digits with at most one point after the first digits, and
    what follows the amount holds no dollar sign and does not continue
    the amount.  Whatever lines came before it, the extractor then sets
    the entry of the normalized payer to the float sum of what the entry
    held before (0.0 when the payer was absent) and the parsed amount,
    and leaves every other entry as it was. *)
Theorem C5_payment_line_is_credited
    (lines : list str) (verb pre raw payer amount : str) :
  (verb = s2l "paid" /\ pre = []) \/ (verb = s2l "sent" /\ bofa_prefix pre) ->
  payment_line verb pre raw payer amount ->
  parse_payments (lines ++ [raw])
  = Dict.set (parse_payments lines) (normalize_name payer)
      (add (default (Fin 0) (Dict.get (parse_payments lines) (normalize_name payer)))
           (of_decimal amount)) /\
  Dict.get (parse_payments (lines ++ [raw])) (normalize_name payer)
  = Some (add (default (Fin 0)
                 (Dict.get (parse_payments lines) (normalize_name payer)))
              (of_decimal amount)) /\
  (forall other,
      other <> normalize_name payer ->
      Dict.get (parse_payments (lines ++ [raw])) other
      = Dict.get (parse_payments lines) other).
Proof.
  intros Hverb Hline.
  assert (Hstep : parse_payments (lines ++ [raw])
                  = credit (parse_payments lines) payer amount).
  { unfold parse_payments. rewrite fold_left_app. cbn [fold_left].
    by apply (parse_line_credit verb _ pre). }
  rewrite Hstep. split; [done|]. split; [apply credit_get|].
  intros other Hother. unfold credit. rewrite dict_get_set.
  by rewrite decide_False.
Qed.

Lemma C5_payment_line_witness :
  parse_payments ([s2l "Al Ma paid you $5"] ++ [s2l "BofA: AL MA sent you $2.50"])
  = Dict.set (parse_payments [s2l "Al Ma paid you $5"]) (normalize_name (s2l "AL MA"))
      (add (default (Fin 0)
              (Dict.get (parse_payments [s2l "Al Ma paid you $5"])
                 (normalize_name (s2l "AL MA"))))
           (of_decimal (s2l "2.50"))) /\
  Dict.get
    (parse_payments ([s2l "Al Ma paid you $5"] ++ [s2l "BofA: AL MA sent you $2.50"]))
    (normalize_name (s2l "AL MA"))
  = Some (add (default (Fin 0)
                 (Dict.get (parse_payments [s2l "Al Ma paid you $5"])
                    (normalize_name (s2l "AL MA"))))
              (of_decimal (s2l "2.50"))) /\
  (forall other,
      other <> normalize_name (s2l "AL MA") ->
      Dict.get
        (parse_payments
           ([s2l "Al Ma paid you $5"] ++ [s2l "BofA: AL MA sent you $2.50"])) other
      = Dict.get (parse_payments [s2l "Al Ma paid you $5"]) other).
Proof.
  apply (C5_payment_line_is_credited [s2l "Al Ma paid you $5"]
           (s2l "sent") (s2l "BofA: ") _ (s2l "AL MA") (s2l "2.50")).
  - right. split; [done|]. right. exists (s2l "BofA:"), (s2l " ").
    split; [reflexivity|]. split; [reflexivity|].
    split; [done|by repeat constructor].
  - exists [], (s2l " "), (s2l "sent"), (s2l " "), (s2l "you"), (s2l " "), [].
    split; [reflexivity|].
    split; [constructor|].
    split; [exists "A"%char, (s2l "L MA"); by repeat constructor|].
    split; [by exists (s2l "AL M"), "A"%char|].
    split; [split; [done|by repeat constructor]|].
    split; [reflexivity|].
    split; [split; [done|by repeat constructor]|].
    split; [reflexivity|].
    split; [split; [done|by repeat constructor]|].
    split; [exists (s2l "2"), (s2l "50");
            repeat split; try done; try (by repeat constructor); by right|].
    split; [done|by intros ?%elem_of_nil].
Defined.

(** C5, as the specification states it, fails for a payer of one
    letter: J is an alphabetic word and 5.00 a decimal number, but
    group 1 of the two patterns needs two characters before the
    whitespace that follows it, so neither pattern matches the line
    and nothing is recorded for j; with a payer of two letters the
    same line is recorded. *)
Lemma C5_counterexample_one_letter_payer :
  search paid_pattern (s2l "J paid you $5.00") = None /\
  search sent_pattern (s2l "J paid you $5.00") = None /\
  parse_payments [s2l "J paid you $5.00"] = [] /\
  Dict.get (parse_payments [s2l "J paid you $5.00"]) (normalize_name (s2l "J"))
  = None /\
  search sent_pattern (s2l "BofA: J sent you $5.00") = None /\
  parse_payments [s2l "BofA: J sent you $5.00"] = [] /\
  parse_payments [s2l "Jo paid you $5.00"] = [(s2l "jo", Fin (5 * unit))].
Proof. repeat split; vm_compute; reflexivity. Qed.
